(** * whisper-websocket-server: the message handler of [minimal-fw-mem.py]

    A shallow embedding of [on_connect] and [on_message] and of the library
    calls they make ([bytes.join], [numpy.frombuffer], [str.join],
    [str.strip], [re.sub], the f-string that builds the reply), followed by
    the properties the specification states about them.

    Conventions.
    - A Python [bytes] value is a [list byte]; a Python [str] is the list of
      its code points.
    - Effects are threaded through a state-and-exception monad over [world]:
      the client object's attributes plus the trace of observable calls
      (logger, engine, socket).
    - External collaborators are variables: the transcription engine
      ([model.transcribe]) and the outcome of socket operations. *)

From Stdlib Require Import List ZArith NArith QArith Lia Bool.
From Stdlib.Strings Require Import Ascii Byte.
From Stdlib.Strings Require String.
Import String.StringSyntax.
From Stdlib Require Import Floats.SpecFloat.
Import ListNotations.

Close Scope Q_scope.

(** ** Python values *)

Definition bytes := list byte.

(** A character is a Unicode code point. *)
Definition char := N.
Definition str := list char.

(** [py "abc"] is the Python string with the same (Latin-1) characters. *)
Definition py (s : String.string) : str :=
  map N_of_ascii (String.list_ascii_of_string s).
Arguments py s%_string_scope.

Definition NL : char := 10%N.          (* line feed *)
Definition DQ : char := 34%N.          (* double quote *)
Definition BSL : char := 92%N.         (* backslash *)
Definition LBR : char := 91%N.         (* [ *)
Definition RBR : char := 93%N.         (* ] *)
Definition APOS : char := 39%N.        (* apostrophe *)

(** [lit] writes a Python literal that contains double quotes: every
    apostrophe of the argument stands for a double quote. *)
Definition lit (s : String.string) : str :=
  map (fun c => if N.eqb c APOS then DQ else c) (py s).
Arguments lit s%_string_scope.

(** [sep.join(xs)], for [bytes] and for [str]. *)
Fixpoint join {A : Type} (sep : list A) (xs : list (list A)) : list A :=
  match xs with
  | [] => []
  | x :: rest =>
      match rest with
      | [] => x
      | _ :: _ => x ++ sep ++ join sep rest
      end
  end.

(** [str.isspace] on one code point: the Unicode white space characters. *)
Definition isspace (c : char) : bool :=
  ((9 <=? c) && (c <=? 13) || (28 <=? c) && (c <=? 32)
   || (c =? 133) || (c =? 160) || (c =? 5760)
   || (8192 <=? c) && (c <=? 8202)
   || (c =? 8232) || (c =? 8233) || (c =? 8239) || (c =? 8287)
   || (c =? 12288))%N.

Fixpoint lstrip (s : str) : str :=
  match s with
  | [] => []
  | c :: s' => if isspace c then lstrip s' else s
  end.

Fixpoint rstrip (s : str) : str :=
  match s with
  | [] => []
  | c :: s' =>
      match rstrip s' with
      | [] => if isspace c then [] else [c]
      | t => c :: t
      end
  end.

(** [s.strip()] *)
Definition strip (s : str) : str := rstrip (lstrip s).

(** ** Exceptions *)

Inductive exn : Type :=
| ValueError         (* numpy.frombuffer on a buffer of odd size *)
| WebSocketError     (* wsocket: a socket operation failed *)
| EngineError.       (* anything model.transcribe raises *)

Inductive outcome (A : Type) : Type :=
| Return (a : A)
| Raise (e : exn).
Arguments Return {A} a.
Arguments Raise {A} e.

(** ** numpy: int16 little-endian samples scaled to float32 *)

(** One [int16] from its two bytes, low byte first, two's complement. *)
Definition int16_le (b0 b1 : byte) : Z :=
  let u := (Z.of_N (Byte.to_N b0) + 256 * Z.of_N (Byte.to_N b1))%Z in
  if (u <? 32768)%Z then u else (u - 65536)%Z.

Fixpoint int16_items (raw : bytes) : list Z :=
  match raw with
  | b0 :: b1 :: rest => int16_le b0 b1 :: int16_items rest
  | _ => []
  end.

(** [np.frombuffer(raw, dtype=np.int16)]: the buffer size must be a multiple
    of the element size, otherwise [ValueError]. *)
Definition frombuffer_int16 (raw : bytes) : outcome (list Z) :=
  if Nat.eqb (Nat.modulo (length raw) 2) 0
  then Return (int16_items raw)
  else Raise ValueError.

(** IEEE 754 binary32: 24 bits of precision, exponents below 128. *)
Definition float32 := spec_float.
Definition f32_of_Z (z : Z) : float32 := binary_normalize 24 128 z 0 false.
Definition f32_div : float32 -> float32 -> float32 := SFdiv 24 128.
Definition f32_leb : float32 -> float32 -> bool := SFleb.
Definition f32_ltb : float32 -> float32 -> bool := SFltb.

(** The real number a finite float stands for. *)
Definition f32_value (x : float32) : option Q :=
  match x with
  | S754_zero _ => Some 0%Q
  | S754_finite s m e =>
      Some (Qmult (inject_Z (if s then Zneg m else Zpos m)) (Qpower 2 e))
  | S754_infinity _ | S754_nan => None
  end.

Definition signal := list float32.

(** [a.astype(np.float32) / 32768.0], element by element. *)
Definition scale_f32 (a : list Z) : signal :=
  map (fun x => f32_div (f32_of_Z x) (f32_of_Z 32768)) a.

(** The normalizer of the specification: line 161 of the source. *)
Definition normalize (raw : bytes) : outcome signal :=
  match frombuffer_int16 raw with
  | Return a => Return (scale_f32 a)
  | Raise e => Raise e
  end.

(** ** re: the fragment of regular expressions the handler uses

    A pattern is a sequence of items; an item is one character class, or a
    greedy star of one.  [\[.*\]] is [One (Lit '['); Star Dot; One (Lit ']')].
    A replacement is the text its template stands for. *)

Inductive atom : Type :=
| Lit (c : char)     (* a literal character *)
| Dot.               (* [.]: any character except a line feed *)

Inductive item : Type :=
| One (a : atom)
| Star (a : atom).   (* [a*], greedy *)

Definition regex := list item.

Definition accepts (a : atom) (c : char) : bool :=
  match a with
  | Lit d => N.eqb c d
  | Dot => negb (N.eqb c NL)
  end.

(** Backtracking match of [r] at the head of [s]; the result is what is left
    of [s] after the match.  [ok] is the test made when the end of the
    pattern is reached (the engine's must-advance check); a refused end
    backtracks into the last star. *)
Fixpoint rmatch (r : regex) (ok : str -> bool) (s : str) {struct r} : option str :=
  match r with
  | [] => if ok s then Some s else None
  | One a :: r' =>
      match s with
      | c :: s' => if accepts a c then rmatch r' ok s' else None
      | [] => None
      end
  | Star a :: r' =>
      (fix star (t : str) : option str :=
         match t with
         | c :: t' =>
             if accepts a c
             then match star t' with
                  | Some e => Some e
                  | None => rmatch r' ok t
                  end
             else rmatch r' ok t
         | [] => rmatch r' ok t
         end) s
  end.

(** A match found by [search]: the text skipped before it, the matched text
    and the text after it. *)
Record found : Type := mkFound { skipped : str; matched : str; rest : str }.

(** The first match at or after the head of [s].  With [must_advance] an
    empty match at the head itself is refused (the previous match was empty
    and ended here); later positions are tried without that restriction. *)
Fixpoint search (r : regex) (must_advance : bool) (s : str) {struct s} : option found :=
  match rmatch r (fun e => negb must_advance || (length e <? length s)%nat) s with
  | Some e => Some (mkFound [] (firstn (length s - length e) s) e)
  | None =>
      match s with
      | [] => None
      | c :: s' =>
          match search r false s' with
          | Some f => Some (mkFound (c :: skipped f) (matched f) (rest f))
          | None => None
          end
      end
  end.

Definition is_empty (s : str) : bool :=
  match s with [] => true | _ :: _ => false end.

(** The substitution loop of [re.sub]: copy the skipped text, emit the
    replacement, continue after the match.  [fuel] bounds the number of
    iterations; [None] means the bound was reached. *)
Fixpoint subx (fuel : nat) (r : regex) (repl : str) (must_advance : bool) (s : str)
  : option str :=
  match fuel with
  | O => None
  | S fuel' =>
      match search r must_advance s with
      | None => Some s
      | Some f =>
          match subx fuel' r repl (is_empty (matched f)) (rest f) with
          | Some out => Some (skipped f ++ repl ++ out)
          | None => None
          end
      end
  end.

(** [re.sub(r, repl, s)].  Two iterations per position and two more always
    suffice (lemma [subx_total]). *)
Definition re_sub (r : regex) (repl : str) (s : str) : str :=
  match subx (2 * length s + 2) r repl false s with
  | Some out => out
  | None => s
  end.

(** ** The transcript sanitizer: lines 163 to 178 of [on_message] *)

(** The pattern of line 171: an opening bracket, any run of characters
    other than a line feed, a closing bracket. *)
Definition bracket_re : regex := [One (Lit LBR); Star Dot; One (Lit RBR)].

(** The pattern of line 174: one double quote. *)
Definition quote_re : regex := [One (Lit DQ)].

(** The template of line 174: a backslash and a double quote.  The escape
    is none of those [re] knows, so both characters are emitted. *)
Definition quote_repl : str := [BSL; DQ].

(** A correction rule: a pattern and its replacement. *)
Definition rule : Type := regex * str.

(** The pattern that is a plain word, such as [Conner]. *)
Definition literal (word : str) : regex := map (fun c => One (Lit c)) word.

(** The module-level list [corrections] of the source: empty. *)
Definition corrections : list rule := [].

(** From the engine's segments to the transcript placed in the reply; the
    logger calls between the steps are those of [on_message] below. *)
Definition sanitize (rules : list rule) (segments : list str) : str :=
  let rr := fold_left (fun rr segment => rr ++ [segment]) segments [] in
  let m := join (py " ") rr in
  let m := strip m in
  let m := re_sub bracket_re [] m in
  let m := re_sub quote_re quote_repl m in
  let m := fold_left (fun m (ab : rule) => re_sub (fst ab) (snd ab) m) rules m in
  m.

(** *** The five steps as the specification words them *)

(** Step 1: the segment texts joined with a single space. *)
Fixpoint join_with_space (segments : list str) : str :=
  match segments with
  | [] => []
  | [x] => x
  | x :: more => x ++ 32%N :: join_with_space more
  end.

(** Step 2: leading and trailing white space trimmed. *)
Definition trim (s : str) : str := rev (lstrip (rev (lstrip s))).

(** Does the current line, from here on, still hold a closing bracket? *)
Fixpoint closes_on_line (t : str) : bool :=
  match t with
  | [] => false
  | c :: t' => if N.eqb c NL then false else N.eqb c RBR || closes_on_line t'
  end.

(** Step 3: every bracket run deleted.  A run opens at a ['['] that has a
    [']'] later on its line and extends to the last [']'] of that line. *)
Fixpoint drop_runs (inside : bool) (s : str) : str :=
  match s with
  | [] => []
  | c :: t =>
      if inside
      then if N.eqb c RBR && negb (closes_on_line t)
           then drop_runs false t
           else drop_runs true t
      else if N.eqb c LBR && closes_on_line t
           then drop_runs true t
           else c :: drop_runs false t
  end.

Definition remove_bracket_runs (s : str) : str := drop_runs false s.

(** Step 4: a backslash put before every double quote. *)
Definition escape_quotes (s : str) : str :=
  flat_map (fun c => if N.eqb c DQ then [BSL; DQ] else [c]) s.

(** Step 5: the rules applied one after the other, first rule first. *)
Fixpoint apply_rules (rules : list rule) (s : str) : str :=
  match rules with
  | [] => s
  | (a, b) :: more => apply_rules more (re_sub a b s)
  end.

Definition sanitize_steps (rules : list rule) (segments : list str) : str :=
  apply_rules rules
    (escape_quotes (remove_bracket_runs (trim (join_with_space segments)))).

(** *** What the specification promises of the output *)

(** Every double quote has a backslash right before it. *)
Definition quotes_escaped (s : str) : Prop :=
  forall pre post, s = pre ++ DQ :: post -> exists pre', pre = pre' ++ [BSL].

(** No substring matches [\[.*\]]: between a ['['] and a later [']'] there
    is always a line feed. *)
Definition no_bracket_run (s : str) : Prop :=
  forall pre mid post, s = pre ++ LBR :: mid ++ RBR :: post -> In NL mid.

(** Decision procedure for [no_bracket_run] (lemmas [has_run_false] and
    [has_run_true]). *)
Fixpoint has_run (s : str) : bool :=
  match s with
  | [] => false
  | c :: t => N.eqb c LBR && closes_on_line t || has_run t
  end.

(** ** The reply: line 180 of [on_message] *)

(** The f-string, with [m] spliced in. *)
Definition response (m : str) : str :=
  lit "{'status': 0, 'segment': 0, 'result': {'hypotheses': [{'transcript': '"
  ++ m
  ++ lit "'}], 'final': true}, 'id': '1aacc69d-3674-438a-b3c5-fc0ed51769a5'}".

(** The placeholder sent as session id. *)
Definition session_id : str := py "1aacc69d-3674-438a-b3c5-fc0ed51769a5".

(** *** The shape of the reply as the specification draws it *)

#[local] Unset Elimination Schemes.
Inductive json : Type :=
| JNum (n : Z)
| JBool (b : bool)
| JStr (raw : str)                      (* spliced between quotes as it is *)
| JList (items : list json)
| JObj (fields : list (str * json)).
#[local] Set Elimination Schemes.

(** Decimal digits of a natural number, most significant first. *)
Fixpoint digits (fuel : nat) (n : N) (acc : str) : str :=
  match fuel with
  | O => acc
  | S fuel' =>
      let acc' := (48 + n mod 10)%N :: acc in
      if (n <? 10)%N then acc' else digits fuel' (n / 10)%N acc'
  end.

Definition render_num (n : Z) : str :=
  match n with
  | Z0 => py "0"
  | Zpos p => digits (Pos.to_nat p) (Npos p) []
  | Zneg p => 45%N :: digits (Pos.to_nat p) (Npos p) []
  end.

(** Text of a JSON value, with a comma and a space between items, a colon and a space after keys. *)
Fixpoint render (j : json) : str :=
  match j with
  | JNum n => render_num n
  | JBool b => if b then py "true" else py "false"
  | JStr raw => DQ :: raw ++ [DQ]
  | JList items => py "[" ++ join (py ", ") (map render items) ++ py "]"
  | JObj fields =>
      py "{"
      ++ join (py ", ")
           (map (fun kv => DQ :: fst kv ++ DQ :: py ": " ++ render (snd kv)) fields)
      ++ py "}"
  end.

Definition response_shape (transcript id : str) : json :=
  JObj [ (py "status", JNum 0);
         (py "segment", JNum 0);
         (py "result",
          JObj [ (py "hypotheses", JList [ JObj [ (py "transcript", JStr transcript) ] ]);
                 (py "final", JBool true) ]);
         (py "id", JStr id) ].

(** ** The world the handler runs in *)

Inductive message : Type :=
| Text (s : str)            (* a text frame: [isinstance(message, str)] *)
| Binary (b : bytes).       (* a binary frame: a [bytearray] *)

Inductive level : Type := DEBUG | INFO | WARNING.

Inductive log_arg : Type :=
| ArgInt (n : nat)
| ArgStr (s : str).

(** One action the handler performs on its surroundings. *)
Inductive event : Type :=
| Log (lvl : level) (fmt : String.string) (args : list log_arg)
| Transcribe (audio : signal)          (* [model.transcribe(audio)] was called *)
| Send (msg : str) (delivered : bool)  (* [client.send(msg)]; not delivered: it raised *)
| Close (done : bool).                 (* [client.close()]; not done: it raised *)
Arguments Log lvl fmt%_string_scope args.

(** The client object: the attribute [abuf] that [on_connect] attaches, and
    whether the handler has closed the connection. *)
Record client : Type := mkClient { abuf : list bytes; closed : bool }.

Record world : Type := mkWorld { cl : client; trace : list event }.

(** A computation: it ends in a value or in an exception, and in both cases
    leaves a world behind. *)
Definition M (A : Type) : Type := world -> outcome A * world.

Definition ret {A : Type} (a : A) : M A := fun w => (Return a, w).

Definition bind {A B : Type} (c : M A) (k : A -> M B) : M B :=
  fun w =>
    match c w with
    | (Return a, w') => k a w'
    | (Raise e, w') => (Raise e, w')
    end.

Definition raise {A : Type} (e : exn) : M A := fun w => (Raise e, w).

(** Lift a pure fallible result. *)
Definition lift {A : Type} (o : outcome A) : M A := fun w => (o, w).

(** [try: body  except WebSocketError: handler]; other exceptions pass. *)
Definition try_except_WebSocketError (body handler : M unit) : M unit :=
  fun w =>
    match body w with
    | (Raise WebSocketError, w') => handler w'
    | r => r
    end.

Declare Scope handler_scope.
Delimit Scope handler_scope with handler.
Notation "x <- c ;; k" := (bind c (fun x => k))
  (at level 61, c at next level, right associativity) : handler_scope.
Notation "c ;; k" := (bind c (fun _ => k))
  (at level 61, right associativity) : handler_scope.

Definition emit (e : event) : M unit :=
  fun w => (Return tt, mkWorld (cl w) (trace w ++ [e])).

Definition logger (lvl : level) (fmt : String.string) (args : list log_arg) : M unit :=
  emit (Log lvl fmt args).
Arguments logger lvl fmt%_string_scope args.

Definition get_abuf : M (list bytes) := fun w => (Return (abuf (cl w)), w).

(** [client.abuf = v] *)
Definition set_abuf (v : list bytes) : M unit :=
  fun w => (Return tt, mkWorld (mkClient v (closed (cl w))) (trace w)).

(** [client.abuf.append(b)] *)
Definition abuf_append (b : bytes) : M unit :=
  fun w => (Return tt, mkWorld (mkClient (abuf (cl w) ++ [b]) (closed (cl w))) (trace w)).

(** Frames delivered to the peer, oldest first. *)
Fixpoint sent_frames (tr : list event) : list str :=
  match tr with
  | [] => []
  | Send msg true :: tr' => msg :: sent_frames tr'
  | _ :: tr' => sent_frames tr'
  end.

(** Calls of [client.send], delivered or not. *)
Fixpoint send_calls (tr : list event) : list str :=
  match tr with
  | [] => []
  | Send msg _ :: tr' => msg :: send_calls tr'
  | _ :: tr' => send_calls tr'
  end.

Fixpoint close_calls (tr : list event) : nat :=
  match tr with
  | [] => 0
  | Close _ :: tr' => S (close_calls tr')
  | _ :: tr' => close_calls tr'
  end.

(** Signals handed to the engine, oldest first. *)
Fixpoint engine_calls (tr : list event) : list signal :=
  match tr with
  | [] => []
  | Transcribe a :: tr' => a :: engine_calls tr'
  | _ :: tr' => engine_calls tr'
  end.

(** Warnings written to the log. *)
Fixpoint warnings (tr : list event) : list String.string :=
  match tr with
  | [] => []
  | Log WARNING fmt _ :: tr' => fmt :: warnings tr'
  | _ :: tr' => warnings tr'
  end.

(** ** The handlers *)

Section Handlers.

(** [model.transcribe] followed by the loop over its segments: the texts
    of the segments, or [None] when the engine raises. *)
Variable transcribe : signal -> option (list str).

(** Whether the next socket operation goes through, given all that has
    happened so far. *)
Variable socket_ok : list event -> bool.

(** The configured correction rules. *)
Variable rules : list rule.

Definition model_transcribe (audio : signal) : M (list str) :=
  (emit (Transcribe audio) ;;
   match transcribe audio with
   | Some segments => ret segments
   | None => raise EngineError
   end)%handler.

Definition client_send (msg : str) : M unit :=
  fun w =>
    if socket_ok (trace w)
    then emit (Send msg true) w
    else (emit (Send msg false) ;; raise WebSocketError)%handler w.

(** [client.close()].  The library is not part of the source; the model
    lets a failing [close] raise, as a failing [send] does.  A library
    whose [close] keeps its failures to itself behaves like the first
    branch, so a statement made for every [socket_ok] covers it. *)
Definition client_close : M unit :=
  fun w =>
    if socket_ok (trace w)
    then (Return tt, mkWorld (mkClient (abuf (cl w)) true) (trace w ++ [Close true]))
    else (emit (Close false) ;; raise WebSocketError)%handler w.

(** Lines 134 to 136.  The two values formatted into the log line (the
    repr of the client and its path) are not modelled. *)
Definition on_connect : M unit :=
  (logger INFO "Client connected | client=%s | path=%s" [] ;;
   set_abuf [])%handler.

(** Lines 147 to 190. *)
Definition on_message (message : message) : M unit :=
  try_except_WebSocketError
    (match message with
     | Text _ =>
         (buf <- get_abuf ;;
          let audio_data := join [] buf in
          logger INFO "Received final audio buffer | segments=%d | bytes=%d"
            [ArgInt (length buf); ArgInt (length audio_data)] ;;
          audio_i16 <- lift (frombuffer_int16 audio_data) ;;
          let audio_np := scale_f32 audio_i16 in
          segments <- model_transcribe audio_np ;;
          let rr := fold_left (fun rr segment => rr ++ [segment]) segments [] in
          let m := join (py " ") rr in
          logger DEBUG "Recognition result before strip: %s" [ArgStr m] ;;
          let m := strip m in
          logger DEBUG "Recognition result before bracket regex: %s" [ArgStr m] ;;
          let m := re_sub bracket_re [] m in
          logger DEBUG "Recognition result after bracket regex: %s" [ArgStr m] ;;
          let m := re_sub quote_re quote_repl m in
          logger DEBUG "Recognition result after quoting: %s" [ArgStr m] ;;
          let m := fold_left (fun m (ab : rule) => re_sub (fst ab) (snd ab) m) rules m in
          logger DEBUG "Recognition result after local corrections: %s" [ArgStr m] ;;
          let msg := response m in
          logger INFO "Sending transcription result | length=%d" [ArgInt (length msg)] ;;
          client_send msg ;;
          client_close)%handler
     | Binary b =>
         (abuf_append b ;;
          buf <- get_abuf ;;
          logger DEBUG "Audio buffer segment added | total_segments=%d"
            [ArgInt (length buf)])%handler
     end)
    (logger WARNING "WebSocketError while processing message" []).

(** The frames of a connection handed to [on_message] one after the
    other; an exception that leaves [on_message] ends the delivery. *)
Fixpoint deliver (frames : list message) : M unit :=
  match frames with
  | [] => ret tt
  | f :: more => (on_message f ;; deliver more)%handler
  end.

(** A whole session: the connection is accepted, then its frames arrive. *)
Definition session (frames : list message) : M unit :=
  (on_connect ;; deliver frames)%handler.

End Handlers.

(** The state of a client object before [on_connect] has run on it. *)
Definition fresh : world := mkWorld (mkClient [] false) [].

(** ** The logging configuration: lines 71 to 113 *)

(** The numeric levels of the [logging] module. *)
Definition levelno (l : level) : nat :=
  match l with
  | DEBUG => 10
  | INFO => 20
  | WARNING => 30
  end.

Definition ERROR : nat := 40.

(** Where a handler writes. *)
Inductive sink : Type :=
| LogFile          (* the rotating file [LOG_FILE] *)
| Console          (* the stream handler *)
| ErrorLogFile.    (* the rotating file [ERROR_LOG_FILE] *)

Record log_handler : Type := mkHandler { target : sink; handler_level : nat }.

(** The root logger as [setup_logging] leaves it. *)
Record logging_setup : Type :=
  mkSetup { root_level : nat; root_handlers : list log_handler }.

(** [setup_logging], from [resolved_level] on: the level of the root logger
    and its three handlers, in the order they are added.  The directory
    and the files themselves, the formatter and the levels given to the
    loggers of the two libraries are not modelled. *)
Definition setup_logging (resolved_level : nat) : logging_setup :=
  mkSetup resolved_level
    [ mkHandler LogFile resolved_level;
      mkHandler Console resolved_level;
      mkHandler ErrorLogFile ERROR ].

(** Where a record logged on the module's logger is written.  That logger
    has no level and no handler of its own: the level of the root decides
    whether the record is made at all, and each handler of the root takes
    it when its own level allows. *)
Definition written_to (cfg : logging_setup) (lvl : level) : list sink :=
  if root_level cfg <=? levelno lvl
  then map target
         (filter (fun h => handler_level h <=? levelno lvl) (root_handlers cfg))
  else [].

(** A log record that carries no text: every argument is a number. *)
Definition numbers_only (args : list log_arg) : Prop :=
  Forall (fun a => match a with ArgInt _ => True | ArgStr _ => False end) args.

(** An event that is not a log record with text above the debug level. *)
Definition discreet (e : event) : Prop :=
  match e with
  | Log DEBUG _ _ => True
  | Log _ _ args => numbers_only args
  | _ => True
  end.

(** ** The test client: [test_ws_client.py], lines 9 to 17 *)

(** What [test_whisper_ws] sends: the bytes of the audio file as one binary
    frame.  It then waits for a frame of the server. *)
Definition test_whisper_ws_frames (audio_bytes : bytes) : list message :=
  [Binary audio_bytes].

(** [ws.recv()] on the frames the server has sent: the first one, or
    nothing to return. *)
Definition recv (from_server : list str) : option str := hd_error from_server.

(** ** Reading the reply back

    The string grammar of JSON (RFC 8259, section 7), used to state what a
    client that parses the reply finds in the transcript field. *)

Definition hex_digit (c : char) : option N :=
  if ((48 <=? c) && (c <=? 57))%N then Some (c - 48)%N
  else if ((65 <=? c) && (c <=? 70))%N then Some (c - 55)%N
  else if ((97 <=? c) && (c <=? 102))%N then Some (c - 87)%N
  else None.

Definition hex4 (a b c d : char) : option char :=
  match hex_digit a, hex_digit b, hex_digit c, hex_digit d with
  | Some x, Some y, Some z, Some w => Some (((x * 16 + y) * 16 + z) * 16 + w)%N
  | _, _, _, _ => None
  end.

(** The character a two-character escape stands for. *)
Definition simple_escape (e : char) : option char :=
  if (e =? DQ)%N then Some DQ
  else if (e =? BSL)%N then Some BSL
  else if (e =? 47)%N then Some 47%N        (* / *)
  else if (e =? 98)%N then Some 8%N         (* b *)
  else if (e =? 102)%N then Some 12%N       (* f *)
  else if (e =? 110)%N then Some 10%N       (* n *)
  else if (e =? 114)%N then Some 13%N       (* r *)
  else if (e =? 116)%N then Some 9%N        (* t *)
  else None.

Definition push (c : char) (r : option (str * str)) : option (str * str) :=
  match r with
  | Some (body, after) => Some (c :: body, after)
  | None => None
  end.

(** Read a JSON string whose opening quote has been consumed: the
    characters it denotes and the text after its closing quote, or [None]
    when the text is not a JSON string. *)
Fixpoint read_json_string (s : str) : option (str * str) :=
  match s with
  | [] => None
  | c :: t =>
      if (c =? DQ)%N then Some ([], t)
      else if (c =? BSL)%N then
        match t with
        | [] => None
        | e :: t' =>
            if (e =? 117)%N                    (* u and four hex digits *)
            then match t' with
                 | h1 :: h2 :: h3 :: h4 :: t'' =>
                     match hex4 h1 h2 h3 h4 with
                     | Some u => push u (read_json_string t'')
                     | None => None
                     end
                 | _ => None
                 end
            else match simple_escape e with
                 | Some d => push d (read_json_string t')
                 | None => None
                 end
        end
      else if (c <? 32)%N then None
      else push c (read_json_string t)
  end.

(** The reply up to and including the quote that opens the transcript. *)
Definition reply_head : str :=
  lit "{'status': 0, 'segment': 0, 'result': {'hypotheses': [{'transcript': '".

(** The reply after the quote that closes the transcript. *)
Definition reply_tail : str :=
  lit "}], 'final': true}, 'id': '1aacc69d-3674-438a-b3c5-fc0ed51769a5'}".

Fixpoint strip_prefix (p s : str) : option str :=
  match p, s with
  | [], _ => Some s
  | a :: p', b :: s' => if (a =? b)%N then strip_prefix p' s' else None
  | _ :: _, [] => None
  end.

(** The transcript a JSON reader finds in a reply, and what follows it. *)
Definition transcript_of (msg : str) : option (str * str) :=
  match strip_prefix reply_head msg with
  | Some body => read_json_string body
  | None => None
  end.

(** ** Checkers used by the proofs *)

(** [P] holds at [z], [z+1], ..., [z+n-1]. *)
Fixpoint all_from (n : nat) (z : Z) (P : Z -> bool) : bool :=
  match n with
  | O => true
  | S k => P z && all_from k (z + 1)%Z P
  end.

(** Scaling the sample [z] is exact, and the result is in [-1, 1). *)
Definition scaled_exactly (z : Z) : bool :=
  let v := f32_div (f32_of_Z z) (f32_of_Z 32768) in
  match f32_value v with
  | Some q => Qeq_bool q (z # 32768)
  | None => false
  end
  && f32_leb (f32_of_Z (-1)) v && f32_ltb v (f32_of_Z 1).

(** The substitution of a pattern whose matches are never empty, as a
    relation between the text and the result. *)
Inductive Subst (r : regex) (repl : str) : str -> str -> Prop :=
| Subst_end :
    rmatch r (fun _ => true) [] = None -> Subst r repl [] []
| Subst_copy c s out :
    rmatch r (fun _ => true) (c :: s) = None ->
    Subst r repl s out -> Subst r repl (c :: s) (c :: out)
| Subst_hit s e out :
    rmatch r (fun _ => true) s = Some e ->
    Subst r repl e out -> Subst r repl s (repl ++ out).

(** Events that are neither an engine call nor a socket operation nor a
    warning. *)
Definition quiet (e : event) : Prop :=
  match e with
  | Log DEBUG _ _ | Log INFO _ _ => True
  | _ => False
  end.

(** Socket operations that raised. *)
Fixpoint socket_failures (tr : list event) : nat :=
  match tr with
  | [] => 0
  | Send _ false :: tr' => S (socket_failures tr')
  | Close false :: tr' => S (socket_failures tr')
  | _ :: tr' => socket_failures tr'
  end.

(** * Properties *)

(** ** Lists and strings *)

Lemma fold_left_snoc {A : Type} (xs acc : list A) :
  fold_left (fun rr x => rr ++ [x]) xs acc = acc ++ xs.
Proof.
  revert acc. induction xs as [|x xs IH]; intros acc; simpl.
  - now rewrite app_nil_r.
  - rewrite IH, <- app_assoc. reflexivity.
Qed.

Lemma join_space (segments : list str) :
  join (py " ") segments = join_with_space segments.
Proof.
  induction segments as [|x [|y more] IH]; try reflexivity.
  change (join (py " ") (x :: y :: more))
    with (x ++ py " " ++ join (py " ") (y :: more)).
  rewrite IH. reflexivity.
Qed.

Lemma join_nil_concat {A : Type} (xs : list (list A)) :
  join [] xs = concat xs.
Proof.
  induction xs as [|x [|y more] IH]; simpl in *.
  - reflexivity.
  - now rewrite app_nil_r.
  - now rewrite IH.
Qed.

Lemma lstrip_snoc (a : str) (c : char) :
  lstrip (a ++ [c]) =
  match lstrip a with
  | [] => if isspace c then [] else [c]
  | t => t ++ [c]
  end.
Proof.
  induction a as [|x a IH]; simpl.
  - reflexivity.
  - destruct (isspace x); [exact IH | reflexivity].
Qed.

Lemma rstrip_rev (s : str) : rstrip s = rev (lstrip (rev s)).
Proof.
  induction s as [|c s IH]; simpl.
  - reflexivity.
  - rewrite lstrip_snoc, IH.
    destruct (lstrip (rev s)) as [|x t]; simpl.
    + destruct (isspace c); reflexivity.
    + rewrite rev_app_distr. simpl.
      destruct (rev t ++ [x]) eqn:E.
      * destruct (rev t); discriminate.
      * reflexivity.
Qed.

Lemma strip_trim (s : str) : strip s = trim s.
Proof. unfold strip, trim. apply rstrip_rev. Qed.

(** ** Samples *)

Lemma int16_items_length (raw : bytes) (n : nat) :
  length raw = 2 * n -> length (int16_items raw) = n.
Proof.
  revert raw. induction n as [|n IH]; intros raw H.
  - destruct raw; [reflexivity | discriminate].
  - destruct raw as [|b0 [|b1 rest]]; simpl in H; try lia.
    simpl. f_equal. apply IH. lia.
Qed.

Lemma int16_items_nth (raw : bytes) (i : nat) :
  2 * i + 1 < length raw ->
  nth i (int16_items raw) 0%Z =
  int16_le (nth (2 * i) raw x00) (nth (2 * i + 1) raw x00).
Proof.
  revert raw. induction i as [|i IH]; intros raw H.
  - destruct raw as [|b0 [|b1 rest]]; simpl in H; try lia. reflexivity.
  - destruct raw as [|b0 [|b1 rest]]; simpl in H; try lia.
    replace (2 * S i) with (S (S (2 * i))) by lia.
    replace (S (S (2 * i)) + 1) with (S (S (2 * i + 1))) by lia.
    simpl nth. simpl int16_items. apply IH. lia.
Qed.

Lemma int16_le_range (b0 b1 : byte) :
  (-32768 <= int16_le b0 b1 < 32768)%Z.
Proof.
  unfold int16_le.
  pose proof (Byte.to_N_bounded b0). pose proof (Byte.to_N_bounded b1).
  destruct (Z.ltb_spec (Z.of_N (to_N b0) + 256 * Z.of_N (to_N b1)) 32768); lia.
Qed.

Lemma frombuffer_even (raw : bytes) (n : nat) :
  length raw = 2 * n -> frombuffer_int16 raw = Return (int16_items raw).
Proof.
  intros H. unfold frombuffer_int16.
  replace (length raw mod 2) with 0; [reflexivity|].
  rewrite H, Nat.mul_comm. symmetry. apply Nat.Div0.mod_mul.
Qed.

Lemma frombuffer_odd (raw : bytes) (n : nat) :
  length raw = 2 * n + 1 -> frombuffer_int16 raw = Raise ValueError.
Proof.
  intros H. unfold frombuffer_int16.
  replace (length raw mod 2) with 1; [reflexivity|].
  rewrite H, Nat.add_comm, Nat.mul_comm, Nat.Div0.mod_add. reflexivity.
Qed.

Lemma all_from_spec (P : Z -> bool) (n : nat) (z : Z) :
  all_from n z P = true ->
  forall i, (z <= i < z + Z.of_nat n)%Z -> P i = true.
Proof.
  revert z. induction n as [|n IH]; intros z H i Hi.
  - lia.
  - simpl in H. apply andb_prop in H. destruct H as [Hz Hrest].
    destruct (Z.eq_dec i z) as [->|Hne]; [exact Hz|].
    apply (IH (z + 1)%Z Hrest). lia.
Qed.

(** Every 16-bit sample scales without rounding. *)
Lemma scaled_exactly_all (z : Z) :
  (-32768 <= z < 32768)%Z -> scaled_exactly z = true.
Proof.
  intros H.
  apply (all_from_spec scaled_exactly (Z.to_nat 65536) (-32768)%Z).
  - vm_compute. reflexivity.
  - lia.
Qed.

(** ** The matcher *)

Lemma rmatch_star_nil (a : atom) (r : regex) (ok : str -> bool) :
  rmatch (Star a :: r) ok [] = rmatch r ok [].
Proof. reflexivity. Qed.

Lemma rmatch_star_cons (a : atom) (r : regex) (ok : str -> bool) (c : char) (t : str) :
  rmatch (Star a :: r) ok (c :: t) =
  if accepts a c
  then match rmatch (Star a :: r) ok t with
       | Some e => Some e
       | None => rmatch r ok (c :: t)
       end
  else rmatch r ok (c :: t).
Proof. reflexivity. Qed.

(** A match ends where the end test holds, and leaves a suffix behind. *)
Lemma rmatch_sound (r : regex) (ok : str -> bool) (s e : str) :
  rmatch r ok s = Some e -> ok e = true /\ exists m, s = m ++ e.
Proof.
  revert s e. induction r as [|[a|a] r IH]; intros s e H.
  - simpl in H. destruct (ok s) eqn:E; inversion H; subst.
    split; [exact E | now exists []].
  - simpl in H. destruct s as [|c s]; [discriminate|].
    destruct (accepts a c); [|discriminate].
    destruct (IH _ _ H) as [Hok [m ->]]. split; [exact Hok | now exists (c :: m)].
  - revert e H. induction s as [|c s IHs]; intros e H.
    + rewrite rmatch_star_nil in H. exact (IH _ _ H).
    + rewrite rmatch_star_cons in H.
      destruct (accepts a c).
      * destruct (rmatch (Star a :: r) ok s) as [e'|] eqn:E.
        -- inversion H; subst e'.
           destruct (IHs _ eq_refl) as [Hok [m ->]].
           split; [exact Hok | now exists (c :: m)].
        -- exact (IH _ _ H).
      * exact (IH _ _ H).
Qed.

(** Only the end tests of suffixes of the text matter. *)
Lemma rmatch_ext (r : regex) (ok1 ok2 : str -> bool) (s : str) :
  (forall e, length e <= length s -> ok1 e = ok2 e) ->
  rmatch r ok1 s = rmatch r ok2 s.
Proof.
  revert s. induction r as [|[a|a] r IH]; intros s H.
  - simpl. rewrite (H s (le_n _)). reflexivity.
  - simpl. destruct s as [|c s]; [reflexivity|].
    destruct (accepts a c); [|reflexivity].
    apply IH. intros e He. apply H. simpl. lia.
  - induction s as [|c s IHs].
    + rewrite !rmatch_star_nil. now apply IH.
    + rewrite !rmatch_star_cons.
      rewrite IHs by (intros e He; apply H; simpl; lia).
      rewrite (IH (c :: s) H). reflexivity.
Qed.

(** A pattern that begins with one character consumes at least one. *)
Lemma rmatch_one_shorter (a : atom) (r : regex) (ok : str -> bool) (s e : str) :
  rmatch (One a :: r) ok s = Some e -> length e < length s.
Proof.
  simpl. destruct s as [|c s]; [discriminate|].
  destruct (accepts a c); [|discriminate].
  intros H. apply rmatch_sound in H. destruct H as [_ [m Hm]].
  apply (f_equal (@length char)) in Hm. rewrite length_app in Hm.
  simpl. lia.
Qed.

(** For such a pattern the must-advance test changes nothing. *)
Lemma rmatch_one_any_ok (a : atom) (r : regex) (ma : bool) (s : str) :
  rmatch (One a :: r) (fun e => negb ma || (length e <? length s)) s =
  rmatch (One a :: r) (fun _ => true) s.
Proof.
  simpl. destruct s as [|c s]; [reflexivity|].
  destruct (accepts a c); [|reflexivity].
  apply rmatch_ext. intros e He.
  replace (length e <? length (c :: s)) with true.
  - now rewrite orb_true_r.
  - symmetry. apply Nat.ltb_lt. simpl. lia.
Qed.

(** ** The search and the substitution loop *)

Lemma search_hit (r : regex) (ma : bool) (s e : str) :
  rmatch r (fun e => negb ma || (length e <? length s)) s = Some e ->
  search r ma s = Some (mkFound [] (firstn (length s - length e) s) e).
Proof. intros H. destruct s; simpl in *; now rewrite H. Qed.

Lemma search_miss (r : regex) (ma : bool) (c : char) (s : str) :
  rmatch r (fun e => negb ma || (length e <? length (c :: s))) (c :: s) = None ->
  search r ma (c :: s) =
  match search r false s with
  | Some f => Some (mkFound (c :: skipped f) (matched f) (rest f))
  | None => None
  end.
Proof. intros H. simpl in *. now rewrite H. Qed.

(** What [search] returns splits the text; an empty match right at the
    head is returned only when that is allowed. *)
Lemma search_sound (r : regex) (ma : bool) (s : str) (f : found) :
  search r ma s = Some f ->
  s = skipped f ++ matched f ++ rest f
  /\ (skipped f = [] -> matched f = [] -> ma = false).
Proof.
  revert ma f. induction s as [|c s IH]; intros ma f H.
  - simpl in H.
    destruct (rmatch r (fun e => negb ma || (length e <? 0)) []) as [e|] eqn:E;
      [|discriminate].
    inversion H; subst f; clear H. simpl.
    apply rmatch_sound in E. destruct E as [Hok [m Hm]].
    symmetry in Hm. apply app_eq_nil in Hm. destruct Hm as [_ ->].
    split; [reflexivity|]. intros _ _.
    simpl in Hok. rewrite orb_false_r in Hok. now destruct ma.
  - destruct (rmatch r (fun e => negb ma || (length e <? length (c :: s))) (c :: s))
      as [e|] eqn:E.
    + rewrite (search_hit _ _ _ _ E) in H. injection H as <-.
      cbn [skipped matched rest].
      destruct (rmatch_sound _ _ _ _ E) as [Hok [m Hm]].
      assert (Hfirst : firstn (length (c :: s) - length e) (c :: s) = m).
      { rewrite Hm at 1 2. rewrite length_app.
        replace (length m + length e - length e) with (length m + 0) by lia.
        rewrite firstn_app_2. simpl. now rewrite app_nil_r. }
      match goal with
      | |- context [firstn ?k (c :: s)] =>
          replace (firstn k (c :: s)) with m by (symmetry; exact Hfirst)
      end.
      split; [exact Hm|].
      intros _ Hnil. rewrite Hnil in Hm. simpl in Hm. rewrite <- Hm in Hok.
      rewrite Nat.ltb_irrefl, orb_false_r in Hok. now destruct ma.
    + rewrite (search_miss _ _ _ _ E) in H.
      destruct (search r false s) as [g|] eqn:G; [|discriminate].
      inversion H; subst f; clear H. cbn [skipped matched rest].
      destruct (IH _ _ G) as [Hs _]. split.
      * simpl. now rewrite <- Hs.
      * discriminate.
Qed.

(** The loop ends: two iterations per character, and two more. *)
Lemma subx_enough (r : regex) (repl : str) (n : nat) :
  forall (ma : bool) (s : str),
    2 * length s + (if ma then 1 else 2) <= n ->
    exists out, subx n r repl ma s = Some out.
Proof.
  induction n as [|n IH]; intros ma s Hn.
  - destruct ma; lia.
  - simpl. destruct (search r ma s) as [f|] eqn:F; [|now exists s].
    destruct (search_sound _ _ _ _ F) as [Hs Hadv].
    assert (Hlen : length s = length (skipped f) + length (matched f) + length (rest f)).
    { rewrite Hs at 1. rewrite !length_app. lia. }
    destruct (IH (is_empty (matched f)) (rest f)) as [out Hout].
    + destruct (matched f) as [|x mt] eqn:Em; simpl in *.
      * destruct (skipped f) as [|y sk] eqn:Es; simpl in *.
        -- rewrite (Hadv eq_refl eq_refl) in Hn. lia.
        -- destruct ma; lia.
      * destruct ma; lia.
    + rewrite Hout. eexists. reflexivity.
Qed.

Lemma subx_total (r : regex) (repl s : str) :
  exists out, subx (2 * length s + 2) r repl false s = Some out
              /\ re_sub r repl s = out.
Proof.
  destruct (subx_enough r repl (2 * length s + 2) false s) as [out H]; [lia|].
  exists out. split; [exact H|]. unfold re_sub. now rewrite H.
Qed.

(** When nothing matches at the head, the head is copied. *)
Lemma subx_skip (r : regex) (repl : str) (n : nat) (ma : bool) (c : char) (s : str) :
  rmatch r (fun e => negb ma || (length e <? length (c :: s))) (c :: s) = None ->
  subx n r repl ma (c :: s) =
  match subx n r repl false s with
  | Some out => Some (c :: out)
  | None => None
  end.
Proof.
  intros H. destruct n as [|n]; [reflexivity|].
  cbn [subx]. rewrite (search_miss _ _ _ _ H).
  destruct (search r false s) as [f|]; [|reflexivity].
  cbn [skipped matched rest].
  destruct (subx n r repl (is_empty (matched f)) (rest f)); reflexivity.
Qed.

(** For a pattern that begins with one character, [Subst] is what the loop
    computes. *)
Lemma subx_Subst (a : atom) (r : regex) (repl s out : str) :
  Subst (One a :: r) repl s out ->
  forall n ma, 2 * length s + 1 <= n ->
               subx n (One a :: r) repl ma s = Some out.
Proof.
  induction 1 as [H | c s out H _ IH | s e out H _ IH]; intros n ma Hn.
  - destruct n as [|n]; [lia|]. reflexivity.
  - rewrite subx_skip by (rewrite rmatch_one_any_ok; exact H).
    rewrite IH by (simpl in Hn; lia). reflexivity.
  - destruct n as [|n]; [lia|].
    pose proof (rmatch_one_shorter _ _ _ _ _ H) as Hlt.
    cbn [subx]. rewrite (search_hit _ ma s e) by (rewrite rmatch_one_any_ok; exact H).
    cbn [skipped matched rest].
    rewrite IH by lia. reflexivity.
Qed.

Lemma re_sub_Subst (a : atom) (r : regex) (repl s out : str) :
  Subst (One a :: r) repl s out -> re_sub (One a :: r) repl s = out.
Proof.
  intros H. unfold re_sub.
  rewrite (subx_Subst _ _ _ _ _ H) by lia. reflexivity.
Qed.

(** ** The two fixed substitutions of the sanitizer *)

(** After the opening bracket: the star runs to the end of the line and
    backs up to the last closing bracket, when the line has one. *)
Lemma bracket_tail_match (t : str) :
  if closes_on_line t
  then exists e, rmatch [Star Dot; One (Lit RBR)] (fun _ => true) t = Some e
                 /\ drop_runs true t = drop_runs false e
  else rmatch [Star Dot; One (Lit RBR)] (fun _ => true) t = None.
Proof.
  induction t as [|c t IH].
  - reflexivity.
  - rewrite rmatch_star_cons. cbn [closes_on_line accepts drop_runs].
    destruct (N.eqb c NL) eqn:Enl; cbn [negb].
    + apply N.eqb_eq in Enl. subst c. reflexivity.
    + destruct (closes_on_line t) eqn:Ec.
      * destruct IH as [e [He Hd]]. rewrite He, orb_true_r, andb_false_r.
        exists e. split; [reflexivity | exact Hd].
      * rewrite IH, orb_false_r, andb_true_r.
        cbn [rmatch accepts]. destruct (N.eqb c RBR).
        -- exists t. split; reflexivity.
        -- reflexivity.
Qed.

Lemma bracket_head_miss (c : char) (t : str) :
  N.eqb c LBR && closes_on_line t = false ->
  rmatch bracket_re (fun _ => true) (c :: t) = None.
Proof.
  intros H. unfold bracket_re. cbn [rmatch accepts].
  destruct (N.eqb c LBR); [|reflexivity].
  simpl in H. pose proof (bracket_tail_match t) as T.
  rewrite H in T. exact T.
Qed.

Lemma Subst_bracket (n : nat) :
  forall s, length s <= n -> Subst bracket_re [] s (drop_runs false s).
Proof.
  induction n as [|n IH]; intros s Hn.
  - destruct s; [|simpl in Hn; lia]. now constructor.
  - destruct s as [|c t]; [now constructor|].
    cbn [drop_runs]. destruct (N.eqb c LBR && closes_on_line t) eqn:E.
    + apply andb_prop in E. destruct E as [Ec Et].
      pose proof (bracket_tail_match t) as T. rewrite Et in T.
      destruct T as [e [He Hd]].
      rewrite Hd. change (drop_runs false e) with ([] ++ drop_runs false e).
      apply Subst_hit with (e := e).
      * unfold bracket_re. cbn [rmatch accepts]. rewrite Ec. exact He.
      * apply IH.
        destruct (rmatch_sound _ _ _ _ He) as [_ [m Hm]].
        apply (f_equal (@length char)) in Hm. rewrite length_app in Hm.
        simpl in Hn. lia.
    + apply Subst_copy.
      * now apply bracket_head_miss.
      * apply IH. simpl in Hn. lia.
Qed.

(** Line 171 deletes the bracket runs. *)
Lemma re_sub_bracket (s : str) :
  re_sub bracket_re [] s = remove_bracket_runs s.
Proof.
  apply re_sub_Subst. apply (Subst_bracket (length s)). apply le_n.
Qed.

Lemma Subst_quote (s : str) : Subst quote_re quote_repl s (escape_quotes s).
Proof.
  induction s as [|c s IH].
  - now constructor.
  - cbn [escape_quotes flat_map]. fold (escape_quotes s).
    destruct (N.eqb c DQ) eqn:E.
    + apply (Subst_hit quote_re quote_repl (c :: s) s).
      * unfold quote_re. cbn [rmatch accepts]. now rewrite E.
      * exact IH.
    + apply Subst_copy.
      * unfold quote_re. cbn [rmatch accepts]. now rewrite E.
      * exact IH.
Qed.

(** Line 174 puts a backslash before every double quote. *)
Lemma re_sub_quote (s : str) :
  re_sub quote_re quote_repl s = escape_quotes s.
Proof. apply re_sub_Subst. apply Subst_quote. Qed.

Lemma fold_left_rules (rules : list rule) (s : str) :
  fold_left (fun m (ab : rule) => re_sub (fst ab) (snd ab) m) rules s =
  apply_rules rules s.
Proof.
  revert s. induction rules as [|[a b] rules IH]; intros s; simpl.
  - reflexivity.
  - apply IH.
Qed.

(** ** What the output of the first four steps cannot contain *)

Lemma closes_on_line_false_app (mid post : str) :
  closes_on_line (mid ++ RBR :: post) = false -> In NL mid.
Proof.
  induction mid as [|c mid IH]; simpl.
  - discriminate.
  - destruct (N.eqb c NL) eqn:E.
    + intros _. left. now apply N.eqb_eq.
    + intros H. apply orb_false_elim in H. destruct H as [_ H]. right. now apply IH.
Qed.

Lemma has_run_false (s : str) : has_run s = false -> no_bracket_run s.
Proof.
  intros H pre. revert s H. induction pre as [|x pre IH]; intros s H mid post Hs.
  - subst s. simpl in H. apply orb_false_elim in H. destruct H as [H _].
    now apply closes_on_line_false_app with (post := post).
  - subst s. simpl in H. apply orb_false_elim in H. destruct H as [_ H].
    now apply (IH _ H mid post).
Qed.

(** Deleting runs leaves none behind, and adds no closing bracket to the
    first line. *)
Lemma drop_runs_clean (s : str) :
  (has_run (drop_runs false s) = false
   /\ (closes_on_line s = false -> closes_on_line (drop_runs false s) = false))
  /\ (closes_on_line s = true ->
      has_run (drop_runs true s) = false
      /\ closes_on_line (drop_runs true s) = false).
Proof.
  induction s as [|c t [[IHrun IHcl] IHin]].
  - repeat split; try reflexivity; discriminate.
  - cbn [drop_runs closes_on_line]. split; [split|].
    + destruct (N.eqb c LBR) eqn:Ec; cbn [andb].
      * destruct (closes_on_line t) eqn:Et.
        -- now apply IHin.
        -- cbn [has_run]. rewrite Ec, (IHcl eq_refl), IHrun. reflexivity.
      * cbn [has_run]. rewrite Ec, IHrun. reflexivity.
    + destruct (N.eqb c NL) eqn:Enl.
      * intros _. destruct (N.eqb c LBR && closes_on_line t) eqn:E.
        -- apply andb_prop in E. destruct E as [E _].
           apply N.eqb_eq in Enl, E. subst c. discriminate.
        -- cbn [closes_on_line]. now rewrite Enl.
      * intros H. apply orb_false_elim in H. destruct H as [Hc Ht].
        rewrite Ht, andb_false_r. cbn [closes_on_line].
        rewrite Enl, Hc, (IHcl Ht). reflexivity.
    + destruct (N.eqb c NL); [discriminate|]. intros H.
      destruct (closes_on_line t) eqn:Et; cbn [negb].
      * rewrite andb_false_r. now apply IHin.
      * rewrite orb_false_r in H. rewrite H. cbn [andb].
        split; [exact IHrun | now apply IHcl].
Qed.

Lemma closes_on_line_escape (s : str) :
  closes_on_line (escape_quotes s) = closes_on_line s.
Proof.
  induction s as [|c s IH]; [reflexivity|].
  cbn [escape_quotes flat_map]. fold (escape_quotes s).
  destruct (N.eqb c DQ) eqn:E.
  - apply N.eqb_eq in E. subst c. simpl. exact IH.
  - simpl. now rewrite IH.
Qed.

Lemma has_run_escape (s : str) : has_run (escape_quotes s) = has_run s.
Proof.
  induction s as [|c s IH]; [reflexivity|].
  cbn [escape_quotes flat_map]. fold (escape_quotes s).
  destruct (N.eqb c DQ) eqn:E.
  - apply N.eqb_eq in E. subst c. simpl. exact IH.
  - simpl. now rewrite IH, closes_on_line_escape.
Qed.

Lemma escape_quotes_escaped (s : str) : quotes_escaped (escape_quotes s).
Proof.
  induction s as [|c s IH]; intros pre post H.
  - destruct pre; discriminate.
  - cbn [escape_quotes flat_map] in H. fold (escape_quotes s) in H.
    destruct (N.eqb c DQ) eqn:E.
    + destruct pre as [|x [|y pre]]; simpl in H.
      * discriminate.
      * injection H as Hx _. subst x. now exists [].
      * injection H as Hx Hy H. subst x y. destruct (IH _ _ H) as [pre' ->].
        now exists (BSL :: DQ :: pre').
    + destruct pre as [|x pre]; simpl in H.
      * injection H as Hc _. subst c. discriminate.
      * injection H as Hx H. subst x. destruct (IH _ _ H) as [pre' ->].
        now exists (c :: pre').
Qed.

(** The converse of [has_run_false]: [has_run] decides [no_bracket_run]. *)
Lemma closes_on_line_true (t : str) :
  closes_on_line t = true ->
  exists mid post, t = mid ++ RBR :: post /\ ~ In NL mid.
Proof.
  induction t as [|c t IH]; simpl; [discriminate|].
  destruct (N.eqb c NL) eqn:Enl; [discriminate|].
  destruct (N.eqb c RBR) eqn:Er; simpl.
  - intros _. apply N.eqb_eq in Er. subst c. exists [], t. split; [reflexivity|].
    intros [].
  - intros H. destruct (IH H) as [mid [post [-> Hm]]].
    exists (c :: mid), post. split; [reflexivity|].
    intros [E|E]; [|contradiction].
    subst c. rewrite N.eqb_refl in Enl. discriminate.
Qed.

Lemma has_run_true (s : str) : has_run s = true -> ~ no_bracket_run s.
Proof.
  induction s as [|c s IH]; simpl; [discriminate|].
  intros H N. apply orb_prop in H. destruct H as [H|H].
  - apply andb_prop in H. destruct H as [Hc Ht].
    apply N.eqb_eq in Hc. subst c.
    destruct (closes_on_line_true s Ht) as [mid [post [-> Hm]]].
    exact (Hm (N [] mid post eq_refl)).
  - apply (IH H). intros pre mid post E.
    apply (N (c :: pre) mid post). now rewrite E.
Qed.

(** With no correction rule the sanitizer is the first four steps. *)
Lemma sanitize_no_rules (segments : list str) :
  sanitize [] segments =
  escape_quotes (remove_bracket_runs (strip (join (py " ") segments))).
Proof.
  unfold sanitize. rewrite fold_left_snoc. simpl.
  now rewrite re_sub_bracket, re_sub_quote.
Qed.

(** ** Reading a trace *)

Ltac by_event_cases a IH :=
  induction a as [|e a IH]; [reflexivity|];
  destruct e as [[| |] ? ?|?|? [|]|[|]]; simpl; rewrite ?IH; reflexivity.

Lemma sent_frames_app (a b : list event) :
  sent_frames (a ++ b) = sent_frames a ++ sent_frames b.
Proof. by_event_cases a IH. Qed.

Lemma send_calls_app (a b : list event) :
  send_calls (a ++ b) = send_calls a ++ send_calls b.
Proof. by_event_cases a IH. Qed.

Lemma close_calls_app (a b : list event) :
  close_calls (a ++ b) = close_calls a + close_calls b.
Proof. by_event_cases a IH. Qed.

Lemma engine_calls_app (a b : list event) :
  engine_calls (a ++ b) = engine_calls a ++ engine_calls b.
Proof. by_event_cases a IH. Qed.

Lemma warnings_app (a b : list event) :
  warnings (a ++ b) = warnings a ++ warnings b.
Proof. by_event_cases a IH. Qed.

Lemma socket_failures_app (a b : list event) :
  socket_failures (a ++ b) = socket_failures a + socket_failures b.
Proof. by_event_cases a IH. Qed.

Lemma quiet_silent (logs : list event) :
  Forall quiet logs ->
  sent_frames logs = [] /\ send_calls logs = [] /\ close_calls logs = 0
  /\ engine_calls logs = [] /\ warnings logs = [] /\ socket_failures logs = 0.
Proof.
  induction 1 as [|e logs He _ IH]; [now repeat split|].
  destruct e as [[| |] f x|x|m d|d]; simpl in He; try contradiction; exact IH.
Qed.

(** The rules come last, after the text has been cleaned. *)
Lemma sanitize_rules_last (rules : list rule) (segments : list str) :
  sanitize rules segments = apply_rules rules (sanitize [] segments).
Proof. unfold sanitize. now rewrite fold_left_rules. Qed.

Lemma sanitize_clean_before_rules (segments : list str) :
  quotes_escaped (sanitize [] segments) /\ no_bracket_run (sanitize [] segments).
Proof.
  rewrite sanitize_no_rules. split.
  - apply escape_quotes_escaped.
  - apply has_run_false. rewrite has_run_escape.
    apply (drop_runs_clean (strip (join (py " ") segments))).
Qed.

(** ** The handler, case by case *)

Section HandlerFacts.

Variable transcribe : signal -> option (list str).
Variable socket_ok : list event -> bool.
Variable rules : list rule.

Let handle := on_message transcribe socket_ok rules.

(** A binary frame: appended, one debug line, nothing else. *)
Lemma on_message_binary (b : bytes) (w : world) :
  handle (Binary b) w =
  (Return tt,
   mkWorld (mkClient (abuf (cl w) ++ [b]) (closed (cl w)))
     (trace w ++ [Log DEBUG "Audio buffer segment added | total_segments=%d"
                    [ArgInt (length (abuf (cl w) ++ [b]))]])).
Proof. reflexivity. Qed.

(** A text frame: the five ways finalization can go. *)
Lemma on_message_text (t : str) (w : world) :
  let raw := join [] (abuf (cl w)) in
  let info := Log INFO "Received final audio buffer | segments=%d | bytes=%d"
                [ArgInt (length (abuf (cl w))); ArgInt (length raw)] in
  let warn := Log WARNING "WebSocketError while processing message" [] in
  match frombuffer_int16 raw with
  | Raise _ =>
      handle (Text t) w = (Raise ValueError, mkWorld (cl w) (trace w ++ [info]))
  | Return a =>
      let audio := scale_f32 a in
      match transcribe audio with
      | None =>
          handle (Text t) w =
          (Raise EngineError, mkWorld (cl w) (trace w ++ [info; Transcribe audio]))
      | Some segments =>
          let msg := response (sanitize rules segments) in
          exists logs,
            Forall quiet logs /\
            let before := trace w ++ info :: Transcribe audio :: logs in
            if socket_ok before
            then if socket_ok (before ++ [Send msg true])
                 then handle (Text t) w =
                      (Return tt,
                       mkWorld (mkClient (abuf (cl w)) true)
                         (before ++ [Send msg true; Close true]))
                 else handle (Text t) w =
                      (Return tt,
                       mkWorld (cl w) (before ++ [Send msg true; Close false; warn]))
            else handle (Text t) w =
                 (Return tt, mkWorld (cl w) (before ++ [Send msg false; warn]))
      end
  end.
Proof.
  intros raw info warn. subst handle.
  unfold on_message, try_except_WebSocketError, bind, get_abuf, logger, emit, lift.
  cbn [cl trace]. fold raw.
  unfold frombuffer_int16.
  destruct (Nat.eqb (length raw mod 2) 0); [|reflexivity].
  cbn zeta. unfold model_transcribe, bind, emit. cbn [cl trace].
  destruct (transcribe (scale_f32 (int16_items raw))) as [segments|] eqn:T.
  2:{ unfold raise. rewrite <- app_assoc. reflexivity. }
  unfold ret. cbn [cl trace].
  fold (sanitize rules segments).
  match goal with
  | |- context [client_send _ _
                  {| cl := _;
                     trace := ((((((?base ++ [?l1]) ++ [?l2]) ++ [?l3]) ++ [?l4])
                                 ++ [?l5]) ++ [?l6]) |}] =>
      exists [l1; l2; l3; l4; l5; l6];
      replace ((((((base ++ [l1]) ++ [l2]) ++ [l3]) ++ [l4]) ++ [l5]) ++ [l6])
        with (trace w ++ info :: Transcribe (scale_f32 (int16_items raw))
                :: [l1; l2; l3; l4; l5; l6])
        by (repeat rewrite <- app_assoc; reflexivity)
  end.
  split; [repeat constructor|].
  cbn zeta. set (before := trace w ++ _).
  unfold client_send, client_close, bind, emit, raise. cbn [cl trace].
  destruct (socket_ok before) eqn:S1; cbn [cl trace].
  - destruct (socket_ok (before ++ [_])) eqn:S2; cbn [cl trace];
      rewrite <- ?app_assoc; reflexivity.
  - rewrite <- ?app_assoc. reflexivity.
Qed.

(** Binary frames in a row only grow the accumulator. *)
Lemma deliver_binaries (chunks : list bytes) (more : list message) :
  forall w,
  exists logs,
    Forall quiet logs /\
    deliver transcribe socket_ok rules (map Binary chunks ++ more) w =
    deliver transcribe socket_ok rules more
      (mkWorld (mkClient (abuf (cl w) ++ chunks) (closed (cl w)))
         (trace w ++ logs)).
Proof.
  induction chunks as [|b chunks IH]; intros w.
  - exists []. split; [constructor|]. simpl. rewrite !app_nil_r.
    now destruct w as [[? ?] ?].
  - cbn [map app deliver]. unfold bind at 1.
    fold handle. rewrite on_message_binary.
    destruct (IH (mkWorld (mkClient (abuf (cl w) ++ [b]) (closed (cl w)))
                    (trace w ++ [Log DEBUG "Audio buffer segment added | total_segments=%d"
                                   [ArgInt (length (abuf (cl w) ++ [b]))]])))
      as [logs [Hq Hd]].
    cbn [cl trace abuf closed] in Hd.
    eexists (_ :: logs). split; [constructor; [|exact Hq]|].
    2:{ rewrite Hd, <- !app_assoc. reflexivity. }
    exact I.
Qed.

End HandlerFacts.

(** ** The model at work *)

(** The example of the [re] documentation for empty matches. *)
Example re_sub_empty_matches :
  re_sub [Star (Lit 120%N)] (py "-") (py "abxd") = py "-a-b--d-".
Proof. vm_compute. reflexivity. Qed.

(** Each bracket run is removed on its own line; a bracket pair with a
    line feed between its brackets is not a run. *)
Example re_sub_bracket_lines :
  re_sub bracket_re [] (py "a[b]c[" ++ NL :: py "]d[e]f]g")
  = py "ac[" ++ NL :: py "]dg".
Proof. vm_compute. reflexivity. Qed.

(** The correction of the specification's test list. *)
Example correction_conner :
  sanitize [(literal (py "Conner"), py "Conor")] [py "I saw Conner today"]
  = py "I saw Conor today".
Proof. vm_compute. reflexivity. Qed.

(** Quotes are escaped: [He said, "Hello"] gains two backslashes. *)
Example sanitize_quotes :
  sanitize corrections [lit "He said, 'Hello'"]
  = py "He said, " ++ [BSL; DQ] ++ py "Hello" ++ [BSL; DQ].
Proof. vm_compute. reflexivity. Qed.

(** The end-to-end scenario of the specification: one binary frame with the
    samples 0 and 32767, then the text frame; the engine answers [test]. *)
Example end_to_end :
  let out := session (fun _ => Some [py "test"]) (fun _ => true) corrections
               [Binary [x00; x00; xff; x7f]; Text (py "EOS")] fresh in
  fst out = Return tt
  /\ engine_calls (trace (snd out))
     = [[S754_zero false; S754_finite false 16776704 (-24)]]
  /\ sent_frames (trace (snd out))
     = [lit "{'status': 0, 'segment': 0, 'result': {'hypotheses': [{'transcript': 'test'}], 'final': true}, 'id': '1aacc69d-3674-438a-b3c5-fc0ed51769a5'}"]
  /\ closed (cl (snd out)) = true.
Proof. vm_compute. repeat split. Qed.

(** * The claims of the specification *)

(** ** The signal normalizer *)

(** C4.  A buffer of [2 * n] bytes, read as little-endian signed 16-bit
    samples, normalizes to exactly [n] values.  The value at index [i] is
    the float32 quotient of sample [i] by 32768.0; that quotient is exact
    (it stands for the rational [sample / 32768]) and lies in [-1.0, 1.0),
    both as a real number and under the float32 comparisons. *)
Theorem normalize_even_exact (raw : bytes) (n : nat) :
  length raw = 2 * n ->
  exists sig,
    normalize raw = Return sig
    /\ length sig = n
    /\ forall i, i < n ->
         let x := int16_le (nth (2 * i) raw x00) (nth (2 * i + 1) raw x00) in
         let v := nth i sig S754_nan in
         v = f32_div (f32_of_Z x) (f32_of_Z 32768)
         /\ (exists q, f32_value v = Some q
                       /\ (q == x # 32768)%Q /\ (-1 <= q)%Q /\ (q < 1)%Q)
         /\ f32_leb (f32_of_Z (-1)) v = true
         /\ f32_ltb v (f32_of_Z 1) = true.
Proof.
  intros H. exists (scale_f32 (int16_items raw)).
  assert (Hlen : length (int16_items raw) = n) by now apply int16_items_length.
  split; [|split].
  - unfold normalize. now rewrite (frombuffer_even raw n H).
  - unfold scale_f32. now rewrite length_map.
  - intros i Hi x v.
    assert (Hv : v = f32_div (f32_of_Z x) (f32_of_Z 32768)).
    { subst v x. unfold scale_f32.
      rewrite (nth_indep _ S754_nan (f32_div (f32_of_Z 0) (f32_of_Z 32768)))
        by (rewrite length_map; lia).
      rewrite (map_nth (fun y => f32_div (f32_of_Z y) (f32_of_Z 32768))).
      rewrite int16_items_nth by lia. reflexivity. }
    split; [exact Hv|].
    pose proof (int16_le_range (nth (2 * i) raw x00) (nth (2 * i + 1) raw x00)) as R.
    fold x in R.
    pose proof (scaled_exactly_all x R) as E.
    unfold scaled_exactly in E. rewrite <- Hv in E.
    apply andb_prop in E. destruct E as [E Hlt].
    apply andb_prop in E. destruct E as [E Hle].
    split; [|split; assumption].
    destruct (f32_value v) as [q|]; [|discriminate].
    exists q. split; [reflexivity|].
    apply Qeq_bool_iff in E.
    split; [exact E|].
    rewrite E. unfold Qle, Qlt. simpl. lia.
Qed.

Lemma normalize_even_exact_witness :
  length [x00; x00; xff; x7f] = 2 * 2
  /\ exists sig,
       normalize [x00; x00; xff; x7f] = Return sig /\ length sig = 2.
Proof.
  split; [reflexivity|].
  destruct (normalize_even_exact [x00; x00; xff; x7f] 2 eq_refl)
    as [sig [Hn [Hl _]]].
  exists sig. split; assumption.
Defined.

(** C2, as the code has it.  On a buffer of odd length nothing is dropped:
    decoding raises [ValueError], [on_message] does not catch it, and the
    handler ends there.  The engine is not called, nothing is sent to the
    client, the connection is not closed and no warning is logged. *)
Theorem odd_buffer_raises
    (transcribe : signal -> option (list str)) (socket_ok : list event -> bool)
    (rules : list rule) (t : str) (w : world) (n : nat) :
  length (join [] (abuf (cl w))) = 2 * n + 1 ->
  normalize (join [] (abuf (cl w))) = Raise ValueError
  /\ exists w',
       on_message transcribe socket_ok rules (Text t) w = (Raise ValueError, w')
       /\ cl w' = cl w
       /\ engine_calls (trace w') = engine_calls (trace w)
       /\ send_calls (trace w') = send_calls (trace w)
       /\ close_calls (trace w') = close_calls (trace w)
       /\ warnings (trace w') = warnings (trace w).
Proof.
  intros H. pose proof (frombuffer_odd _ n H) as F. split.
  - unfold normalize. now rewrite F.
  - pose proof (on_message_text transcribe socket_ok rules t w) as T.
    cbn zeta in T. rewrite F in T.
    eexists. split; [exact T|]. cbn [cl trace].
    rewrite engine_calls_app, send_calls_app, close_calls_app, warnings_app.
    simpl. rewrite !app_nil_r, Nat.add_0_r. repeat split.
Qed.

Lemma odd_buffer_raises_witness :
  length (join [] (abuf (cl (mkWorld (mkClient [[x01; x02; x03]] false) [])))) = 2 * 1 + 1
  /\ normalize [x01; x02; x03] = Raise ValueError.
Proof.
  split; [reflexivity|].
  exact (proj1 (odd_buffer_raises (fun _ => Some []) (fun _ => true) corrections
                  (py "EOS") (mkWorld (mkClient [[x01; x02; x03]] false) []) 1
                  eq_refl)).
Defined.

(** C2 as stated fails: with three bytes in the accumulator no signal of one
    sample is produced; the text frame ends in [ValueError] and the engine
    is never called. *)
Lemma odd_buffer_not_truncated :
  let w := mkWorld (mkClient [[x01; x02; x03]] false) [] in
  let r := on_message (fun _ => Some []) (fun _ => true) corrections
             (Text (py "EOS")) w in
  ~ (exists sig, normalize (join [] (abuf (cl w))) = Return sig /\ length sig = 1)
  /\ fst r = Raise ValueError
  /\ engine_calls (trace (snd r)) = []
  /\ send_calls (trace (snd r)) = [].
Proof.
  cbv zeta. split; [|split; [|split]]; try reflexivity.
  intros [sig [H _]]. discriminate H.
Qed.

(** ** The transcript sanitizer *)

(** C3, as the code has it.  The greedy removal deletes the span from the
    first opening bracket to the last closing bracket, and the result is
    the remaining text with its leading space: trimming has already
    happened when the brackets are removed. *)
Theorem sanitize_greedy_example :
  re_sub bracket_re [] (py "[noise] hello [music] world") = py " world"
  /\ sanitize corrections [py "[noise] hello [music] world"] = py " world".
Proof. split; vm_compute; reflexivity. Qed.

(** C3 as stated fails: the output is not the trimmed word. *)
Lemma sanitize_greedy_not_trimmed :
  sanitize corrections [py "[noise] hello [music] world"] <> py "world".
Proof. vm_compute. discriminate. Qed.

(** C5.  The sanitizer is the composition of the five steps in the order
    the specification gives: join with a space, trim, delete the bracket
    runs, escape the double quotes, apply the rules first to last. *)
Theorem sanitize_is_five_steps (rules : list rule) (segments : list str) :
  sanitize rules segments = sanitize_steps rules segments.
Proof.
  unfold sanitize, sanitize_steps.
  rewrite fold_left_snoc, fold_left_rules. cbn [app].
  rewrite re_sub_quote, re_sub_bracket, strip_trim, join_space.
  reflexivity.
Qed.

(** C6, as the code has it.  For every rule list, the text the rules are
    applied to has a backslash before every double quote and no substring
    that matches the bracket pattern; with the rule list configured in the
    source (empty) that text is the output. *)
Theorem sanitize_output_clean (segments : list str) :
  (forall rules,
      exists m0,
        sanitize rules segments = apply_rules rules m0
        /\ quotes_escaped m0 /\ no_bracket_run m0)
  /\ quotes_escaped (sanitize corrections segments)
  /\ no_bracket_run (sanitize corrections segments).
Proof.
  destruct (sanitize_clean_before_rules segments) as [Hq Hb].
  split; [|split; assumption].
  intros rules. exists (sanitize [] segments).
  split; [apply sanitize_rules_last | split; assumption].
Qed.

(** C6 as stated fails: rules run after the escaping, so a rule can put a
    bare double quote, or a bracket run, into the output. *)
Lemma sanitize_rules_can_unescape :
  ~ quotes_escaped (sanitize [([One (Lit 120%N)], [DQ])] [py "x"])
  /\ ~ no_bracket_run (sanitize [([One (Lit 120%N)], py "[x]")] [py "x"]).
Proof.
  split.
  - intros H. destruct (H [] [] eq_refl) as [pre' E].
    destruct pre'; discriminate E.
  - intros H. specialize (H [] [120%N] [] eq_refl).
    simpl in H. destruct H as [H|[]]. discriminate H.
Qed.

(** ** The reply *)

Lemma response_is_shape (m : str) :
  response m = render (response_shape m session_id).
Proof.
  unfold response, response_shape.
  cbn [render map fst snd join render_num].
  repeat first [rewrite <- app_assoc | rewrite <- app_comm_cons].
  vm_compute. reflexivity.
Qed.

(** Case analysis of a text frame: the outcome of [on_message] is replaced
    by its value in each of the five cases. *)
Ltac text_cases transcribe socket_ok rules t w :=
  let T := fresh "T" in
  let Q := fresh "Q" in
  let logs := fresh "logs" in
  pose proof (on_message_text transcribe socket_ok rules t w) as T;
  cbn zeta in T; unfold normalize; unfold frombuffer_int16 in T |- *;
  destruct (Nat.eqb (length (join [] (abuf (cl w))) mod 2) 0);
  [ destruct (transcribe (scale_f32 (int16_items (join [] (abuf (cl w))))))
      as [?segments|] eqn:?E;
    [ destruct T as [logs [Q T]];
      destruct (quiet_silent logs Q) as (?Q1 & ?Q2 & ?Q3 & ?Q4 & ?Q5 & ?Q6);
      destruct (socket_ok _); [destruct (socket_ok _)|] | ] | ];
  rewrite T; cbn [fst snd cl trace abuf closed].

Ltac read_trace :=
  rewrite ?sent_frames_app, ?send_calls_app, ?close_calls_app,
    ?engine_calls_app, ?warnings_app, ?socket_failures_app;
  cbn [sent_frames send_calls close_calls engine_calls warnings socket_failures].

Lemma snd_bind_ret (c : M unit) (w : world) :
  snd (bind c (fun _ => ret tt) w) = snd (c w)
  /\ fst (bind c (fun _ => ret tt) w) = fst (c w).
Proof. unfold bind, ret. destruct (c w) as [[[]|e] w']; split; reflexivity. Qed.

(** A session of binary frames and one text frame comes down to the text
    frame handled with all the chunks in the accumulator. *)
Lemma session_binaries_then_text
    (transcribe : signal -> option (list str)) (socket_ok : list event -> bool)
    (rules : list rule) (chunks : list bytes) (t : str) :
  exists blogs,
    Forall quiet blogs /\
    let w1 := mkWorld (mkClient chunks false)
                (Log INFO "Client connected | client=%s | path=%s" [] :: blogs) in
    let out := session transcribe socket_ok rules (map Binary chunks ++ [Text t]) fresh in
    let last := on_message transcribe socket_ok rules (Text t) w1 in
    fst out = fst last /\ snd out = snd last.
Proof.
  destruct (deliver_binaries transcribe socket_ok rules chunks [Text t]
              (mkWorld (mkClient [] false)
                 [Log INFO "Client connected | client=%s | path=%s" []]))
    as [blogs [Qb D]].
  exists blogs. split; [exact Qb|]. cbn zeta.
  change (session transcribe socket_ok rules (map Binary chunks ++ [Text t]) fresh)
    with (deliver transcribe socket_ok rules (map Binary chunks ++ [Text t])
            (mkWorld (mkClient [] false)
               [Log INFO "Client connected | client=%s | path=%s" []])).
  rewrite D. cbn [cl trace abuf closed app deliver].
  destruct (snd_bind_ret (on_message transcribe socket_ok rules (Text t))
              (mkWorld (mkClient chunks false)
                 (Log INFO "Client connected | client=%s | path=%s" [] :: blogs)))
    as [-> ->].
  split; reflexivity.
Qed.

(** ** The session protocol *)

(** What a text frame does to the accumulator, the engine and the socket,
    in one statement. *)
Lemma text_frame_effects
    (transcribe : signal -> option (list str)) (socket_ok : list event -> bool)
    (rules : list rule) (t : str) (w : world) :
  let out := on_message transcribe socket_ok rules (Text t) w in
  abuf (cl (snd out)) = abuf (cl w)
  /\ engine_calls (trace (snd out)) =
     engine_calls (trace w)
     ++ match normalize (join [] (abuf (cl w))) with
        | Return audio => [audio]
        | Raise _ => []
        end
  /\ send_calls (trace (snd out)) =
     send_calls (trace w)
     ++ match normalize (join [] (abuf (cl w))) with
        | Return audio =>
            match transcribe audio with
            | Some segments => [response (sanitize rules segments)]
            | None => []
            end
        | Raise _ => []
        end
  /\ fst out =
     match normalize (join [] (abuf (cl w))) with
     | Return audio =>
         match transcribe audio with
         | Some _ => Return tt
         | None => Raise EngineError
         end
     | Raise _ => Raise ValueError
     end.
Proof.
  cbv zeta.
  text_cases transcribe socket_ok rules t w; rewrite ?E; read_trace;
    rewrite ?Q2, ?Q4; cbn [app]; rewrite ?app_nil_r; repeat split.
Qed.

(** The same for a whole session of binary frames and one text frame. *)
Lemma session_text_effects
    (transcribe : signal -> option (list str)) (socket_ok : list event -> bool)
    (rules : list rule) (chunks : list bytes) (t : str) :
  let out := session transcribe socket_ok rules (map Binary chunks ++ [Text t]) fresh in
  engine_calls (trace (snd out)) =
  match normalize (concat chunks) with
  | Return audio => [audio]
  | Raise _ => []
  end
  /\ send_calls (trace (snd out)) =
     match normalize (concat chunks) with
     | Return audio =>
         match transcribe audio with
         | Some segments => [response (sanitize rules segments)]
         | None => []
         end
     | Raise _ => []
     end
  /\ fst out =
     match normalize (concat chunks) with
     | Return audio =>
         match transcribe audio with
         | Some _ => Return tt
         | None => Raise EngineError
         end
     | Raise _ => Raise ValueError
     end.
Proof.
  destruct (session_binaries_then_text transcribe socket_ok rules chunks t)
    as [blogs [Qb [Hfst Hsnd]]].
  cbv zeta. rewrite Hfst, Hsnd.
  destruct (quiet_silent blogs Qb) as (B1 & B2 & B3 & B4 & B5 & B6).
  destruct (text_frame_effects transcribe socket_ok rules t
              (mkWorld (mkClient chunks false)
                 (Log INFO "Client connected | client=%s | path=%s" [] :: blogs)))
    as (_ & He & Hs & Hf).
  cbn [cl trace abuf] in He, Hs, Hf. rewrite join_nil_concat in He, Hs, Hf.
  cbn [engine_calls send_calls] in He, Hs. rewrite B4 in He. rewrite B2 in Hs.
  repeat split; assumption.
Qed.





(** C7.  While audio is awaited, a text frame starts finalization whatever
    it says: the outcome does not depend on its content, the buffer is
    drained (the first thing logged) and the engine is called whenever the
    buffer decodes.  A binary frame is appended to the accumulator; the
    only other change is one debug line in the log, and nothing is sent. *)
Theorem awaiting_audio_frames
    (transcribe : signal -> option (list str)) (socket_ok : list event -> bool)
    (rules : list rule) (w : world) :
  let handle := on_message transcribe socket_ok rules in
  (forall t t', handle (Text t) w = handle (Text t') w)
  /\ (forall t,
        (exists more,
            trace (snd (handle (Text t) w)) =
            trace w
            ++ Log INFO "Received final audio buffer | segments=%d | bytes=%d"
                 [ArgInt (length (abuf (cl w)));
                  ArgInt (length (join [] (abuf (cl w))))]
               :: more)
        /\ engine_calls (trace (snd (handle (Text t) w))) =
           engine_calls (trace w)
           ++ match normalize (join [] (abuf (cl w))) with
              | Return sig => [sig]
              | Raise _ => []
              end)
  /\ (forall b,
        fst (handle (Binary b) w) = Return tt
        /\ abuf (cl (snd (handle (Binary b) w))) = abuf (cl w) ++ [b]
        /\ closed (cl (snd (handle (Binary b) w))) = closed (cl w)
        /\ trace (snd (handle (Binary b) w)) =
           trace w ++ [Log DEBUG "Audio buffer segment added | total_segments=%d"
                         [ArgInt (length (abuf (cl w) ++ [b]))]]
        /\ send_calls (trace (snd (handle (Binary b) w))) = send_calls (trace w)
        /\ engine_calls (trace (snd (handle (Binary b) w))) = engine_calls (trace w)).
Proof.
  intros handle. subst handle. split; [|split].
  - reflexivity.
  - intros t. text_cases transcribe socket_ok rules t w.
    + split.
      * eexists. rewrite <- app_assoc. cbn [app]. reflexivity.
      * read_trace. rewrite Q4. cbn [app]. now rewrite !app_nil_r.
    + split.
      * eexists. rewrite <- app_assoc. cbn [app]. reflexivity.
      * read_trace. rewrite Q4. cbn [app]. now rewrite !app_nil_r.
    + split.
      * eexists. rewrite <- app_assoc. cbn [app]. reflexivity.
      * read_trace. rewrite Q4. cbn [app]. now rewrite !app_nil_r.
    + split.
      * eexists. reflexivity.
      * read_trace. reflexivity.
    + split.
      * eexists. reflexivity.
      * read_trace. now rewrite !app_nil_r.
  - intros b. rewrite on_message_binary. cbn [fst snd cl trace abuf closed].
    read_trace. rewrite !app_nil_r. repeat split.
Qed.

(** C8.  The reply is the fixed JSON shape: status 0, segment 0, a result
    with one hypothesis that holds the sanitized transcript and with final
    true, and an id that is the same constant placeholder for every
    session.  A text frame makes the handler call [send] at most once, and
    what it sends is that reply. *)
Theorem reply_has_fixed_shape
    (transcribe : signal -> option (list str)) (socket_ok : list event -> bool)
    (rules : list rule) (t : str) (w : world) :
  (forall m, response m = render (response_shape m session_id))
  /\ exists new,
       send_calls (trace (snd (on_message transcribe socket_ok rules (Text t) w))) =
       send_calls (trace w) ++ new
       /\ (new = []
           \/ exists segments,
                transcribe (scale_f32 (int16_items (join [] (abuf (cl w)))))
                = Some segments
                /\ new = [render (response_shape (sanitize rules segments) session_id)]).
Proof.
  split; [exact response_is_shape|].
  text_cases transcribe socket_ok rules t w; read_trace.
  1-3: exists [response (sanitize rules segments)];
       rewrite Q2, ?app_nil_r; cbn [app]; split; [reflexivity|];
       right; exists segments; split; [reflexivity|];
       now rewrite response_is_shape.
  all: exists []; split; [now rewrite !app_nil_r | now left].
Qed.

Ltac last_is_warning :=
  match goal with
  | |- exists tr, ?b ++ ?l = _ =>
      exists (b ++ removelast l); cbn [removelast];
      rewrite <- !app_assoc; reflexivity
  end.

(** C9.  When a socket operation raises during finalization, the handler
    still returns normally: the error is caught and a warning is the last
    thing logged.  Exactly one socket operation failed and [send] was
    called once, [close] at most once: nothing is tried again. *)
Theorem socket_error_is_caught
    (transcribe : signal -> option (list str)) (socket_ok : list event -> bool)
    (rules : list rule) (t : str) (w : world) (r : outcome unit) (w' : world) :
  on_message transcribe socket_ok rules (Text t) w = (r, w') ->
  socket_failures (trace w') <> socket_failures (trace w) ->
  r = Return tt
  /\ (exists tr, trace w' = tr ++ [Log WARNING "WebSocketError while processing message" []])
  /\ length (warnings (trace w')) = S (length (warnings (trace w)))
  /\ socket_failures (trace w') = S (socket_failures (trace w))
  /\ length (send_calls (trace w')) = S (length (send_calls (trace w)))
  /\ close_calls (trace w') <= S (close_calls (trace w)).
Proof.
  text_cases transcribe socket_ok rules t w;
    intros H; injection H as <- <-; cbn [trace];
    read_trace; rewrite ?Q2, ?Q3, ?Q5, ?Q6; cbn [app];
    rewrite ?length_app; cbn [length]; intros F.
  - exfalso. apply F. lia.
  - repeat split; try lia. last_is_warning.
  - repeat split; try lia. last_is_warning.
  - exfalso. apply F. lia.
  - exfalso. apply F. lia.
Qed.

Lemma socket_error_is_caught_witness :
  let w := mkWorld (mkClient [[x00; x00]] false) [] in
  let r := on_message (fun _ => Some [py "test"]) (fun _ => false) corrections
             (Text (py "EOS")) w in
  fst r = Return tt /\ socket_failures (trace (snd r)) = 1.
Proof.
  cbv zeta.
  destruct (socket_error_is_caught (fun _ => Some [py "test"]) (fun _ => false)
              corrections (py "EOS") (mkWorld (mkClient [[x00; x00]] false) [])
              (Return tt)
              (snd (on_message (fun _ => Some [py "test"]) (fun _ => false)
                      corrections (Text (py "EOS"))
                      (mkWorld (mkClient [[x00; x00]] false) [])))
              eq_refl)
    as (H1 & _ & _ & H4 & _).
  - vm_compute. discriminate.
  - split; [reflexivity | exact H4].
Defined.

(** C10.  Finalization reads the accumulator and leaves it as it was: after
    a text frame, however the frame ends, the chunk list is unchanged; at
    the end of a session it holds every chunk received, in arrival order. *)
Theorem finalization_keeps_accumulator
    (transcribe : signal -> option (list str)) (socket_ok : list event -> bool)
    (rules : list rule) (t : str) :
  (forall w, abuf (cl (snd (on_message transcribe socket_ok rules (Text t) w)))
             = abuf (cl w))
  /\ (forall chunks,
        abuf (cl (snd (session transcribe socket_ok rules
                         (map Binary chunks ++ [Text t]) fresh)))
        = chunks).
Proof.
  assert (K : forall w,
             abuf (cl (snd (on_message transcribe socket_ok rules (Text t) w)))
             = abuf (cl w)).
  { intros w. text_cases transcribe socket_ok rules t w; reflexivity. }
  split; [exact K|].
  intros chunks.
  destruct (session_binaries_then_text transcribe socket_ok rules chunks t)
    as [blogs [_ [_ Hsnd]]].
  rewrite Hsnd. apply K.
Qed.


(** * Further properties of the code *)

(** ** How [on_message] ends *)

(** X1.  The outcome of [on_message] in full: a binary frame always returns;
    a text frame raises [ValueError] when the buffer does not decode,
    raises the engine's exception when the engine fails, and returns in
    every other case, whatever the socket does.  [WebSocketError] never
    leaves the handler. *)
Theorem on_message_outcome
    (transcribe : signal -> option (list str)) (socket_ok : list event -> bool)
    (rules : list rule) (msg : message) (w : world) :
  fst (on_message transcribe socket_ok rules msg w) =
  match msg with
  | Binary _ => Return tt
  | Text _ =>
      match normalize (join [] (abuf (cl w))) with
      | Raise _ => Raise ValueError
      | Return audio =>
          match transcribe audio with
          | Some _ => Return tt
          | None => Raise EngineError
          end
      end
  end
  /\ fst (on_message transcribe socket_ok rules msg w) <> Raise WebSocketError.
Proof.
  destruct msg as [t|b].
  - text_cases transcribe socket_ok rules t w;
      rewrite ?E; split; (reflexivity || discriminate).
  - rewrite on_message_binary. split; [reflexivity | discriminate].
Qed.

(** X2.  When the engine fails, its exception leaves [on_message]: nothing
    is sent, the connection is not closed, no warning is logged and the
    client object is as it was. *)
Theorem engine_failure_propagates
    (transcribe : signal -> option (list str)) (socket_ok : list event -> bool)
    (rules : list rule) (t : str) (w : world) (audio : signal) :
  normalize (join [] (abuf (cl w))) = Return audio ->
  transcribe audio = None ->
  exists w',
    on_message transcribe socket_ok rules (Text t) w = (Raise EngineError, w')
    /\ cl w' = cl w
    /\ engine_calls (trace w') = engine_calls (trace w) ++ [audio]
    /\ send_calls (trace w') = send_calls (trace w)
    /\ close_calls (trace w') = close_calls (trace w)
    /\ warnings (trace w') = warnings (trace w).
Proof.
  intros Hn He. revert Hn.
  text_cases transcribe socket_ok rules t w; intros Hn;
    try discriminate Hn; injection Hn as <-; try congruence.
  eexists. split; [reflexivity|]. cbn [cl trace]. read_trace.
  rewrite !app_nil_r, Nat.add_0_r. repeat split.
Qed.

Lemma engine_failure_propagates_witness :
  fst (on_message (fun _ => None) (fun _ => true) corrections (Text (py "EOS"))
         (mkWorld (mkClient [[x00; x00]] false) []))
  = Raise EngineError.
Proof.
  destruct (engine_failure_propagates (fun _ => None) (fun _ => true) corrections
              (py "EOS") (mkWorld (mkClient [[x00; x00]] false) [])
              [S754_zero false] eq_refl eq_refl)
    as [w' [H _]].
  rewrite H. reflexivity.
Defined.

(** X3.  When [send] raises, [close] is never called: the handler returns
    with the connection left open. *)
Theorem failed_send_skips_close
    (transcribe : signal -> option (list str)) (socket_ok : list event -> bool)
    (rules : list rule) (t : str) (w : world) (r : outcome unit) (w' : world) :
  on_message transcribe socket_ok rules (Text t) w = (r, w') ->
  send_calls (trace w') <> send_calls (trace w) ->
  sent_frames (trace w') = sent_frames (trace w) ->
  r = Return tt
  /\ close_calls (trace w') = close_calls (trace w)
  /\ cl w' = cl w.
Proof.
  text_cases transcribe socket_ok rules t w;
    intros H; injection H as <- <-; cbn [cl trace];
    read_trace; rewrite ?Q1, ?Q2, ?Q3; cbn [app];
    rewrite ?app_nil_r, ?Nat.add_0_r; intros Hs Hd.
  - exfalso. apply (f_equal (@length str)) in Hd.
    rewrite length_app in Hd. simpl in Hd. lia.
  - exfalso. apply (f_equal (@length str)) in Hd.
    rewrite length_app in Hd. simpl in Hd. lia.
  - repeat split.
  - exfalso. now apply Hs.
  - exfalso. now apply Hs.
Qed.

Lemma failed_send_skips_close_witness :
  close_calls
    (trace (snd (on_message (fun _ => Some [py "test"]) (fun _ => false)
                   corrections (Text (py "EOS"))
                   (mkWorld (mkClient [[x00; x00]] false) []))))
  = 0.
Proof.
  refine (proj1 (proj2
    (failed_send_skips_close (fun _ => Some [py "test"]) (fun _ => false)
       corrections (py "EOS") (mkWorld (mkClient [[x00; x00]] false) [])
       (Return tt)
       (snd (on_message (fun _ => Some [py "test"]) (fun _ => false)
               corrections (Text (py "EOS"))
               (mkWorld (mkClient [[x00; x00]] false) [])))
       eq_refl _ eq_refl))).
  vm_compute. discriminate.
Defined.

(** X4.  When the reply is delivered, the handler returns normally and
    [close] is called exactly once, right after the [send] that delivered
    the reply; no other call of [send] or [close] follows. *)
Theorem delivered_reply_then_close
    (transcribe : signal -> option (list str)) (socket_ok : list event -> bool)
    (rules : list rule) (t : str) (w : world) (r : outcome unit) (w' : world) :
  on_message transcribe socket_ok rules (Text t) w = (r, w') ->
  sent_frames (trace w') <> sent_frames (trace w) ->
  r = Return tt
  /\ close_calls (trace w') = S (close_calls (trace w))
  /\ exists before msg done after,
       trace w' = before ++ Send msg true :: Close done :: after
       /\ send_calls after = [] /\ close_calls after = 0.
Proof.
  text_cases transcribe socket_ok rules t w;
    intros H; injection H as <- <-; cbn [cl trace closed];
    read_trace; rewrite ?Q1, ?Q3; cbn [app];
    rewrite ?app_nil_r, ?Nat.add_0_r; intros Hd.
  - split; [reflexivity|]. split; [lia|].
    do 4 eexists. split; [reflexivity|]. split; reflexivity.
  - split; [reflexivity|]. split; [lia|].
    do 4 eexists. split; [reflexivity|]. split; reflexivity.
  - exfalso. now apply Hd.
  - exfalso. now apply Hd.
  - exfalso. now apply Hd.
Qed.

Lemma delivered_reply_then_close_witness :
  close_calls
    (trace (snd (on_message (fun _ => Some [py "test"]) (fun _ => true)
                   corrections (Text (py "EOS"))
                   (mkWorld (mkClient [[x00; x00]] false) []))))
  = 1.
Proof.
  refine (proj1 (proj2
    (delivered_reply_then_close (fun _ => Some [py "test"]) (fun _ => true)
       corrections (py "EOS") (mkWorld (mkClient [[x00; x00]] false) [])
       (Return tt)
       (snd (on_message (fun _ => Some [py "test"]) (fun _ => true)
               corrections (Text (py "EOS"))
               (mkWorld (mkClient [[x00; x00]] false) [])))
       eq_refl _))).
  vm_compute. discriminate.
Defined.

(** ** Sessions *)

(** X5.  A session of binary frames only gets no reply: every chunk is in
    the accumulator, in arrival order, and the handler has neither called
    the engine nor touched the socket. *)
Theorem binary_frames_get_no_reply
    (transcribe : signal -> option (list str)) (socket_ok : list event -> bool)
    (rules : list rule) (chunks : list bytes) :
  let out := session transcribe socket_ok rules (map Binary chunks) fresh in
  fst out = Return tt
  /\ abuf (cl (snd out)) = chunks
  /\ closed (cl (snd out)) = false
  /\ engine_calls (trace (snd out)) = []
  /\ send_calls (trace (snd out)) = []
  /\ close_calls (trace (snd out)) = 0.
Proof.
  destruct (deliver_binaries transcribe socket_ok rules chunks []
              (mkWorld (mkClient [] false)
                 [Log INFO "Client connected | client=%s | path=%s" []]))
    as [blogs [Qb D]].
  rewrite app_nil_r in D. cbv zeta.
  change (session transcribe socket_ok rules (map Binary chunks) fresh)
    with (deliver transcribe socket_ok rules (map Binary chunks)
            (mkWorld (mkClient [] false)
               [Log INFO "Client connected | client=%s | path=%s" []])).
  rewrite D. cbn [deliver ret fst snd cl trace abuf closed app].
  destruct (quiet_silent blogs Qb) as (B1 & B2 & B3 & B4 & B5 & B6).
  cbn [engine_calls send_calls close_calls]. repeat split; assumption.
Qed.

(** X6.  The test client sends its audio as one binary frame and no text
    frame; served by this handler it has nothing to receive. *)
Theorem test_client_gets_no_reply
    (transcribe : signal -> option (list str)) (socket_ok : list event -> bool)
    (rules : list rule) (audio_bytes : bytes) :
  let out := session transcribe socket_ok rules
               (test_whisper_ws_frames audio_bytes) fresh in
  recv (sent_frames (trace (snd out))) = None
  /\ abuf (cl (snd out)) = [audio_bytes]
  /\ engine_calls (trace (snd out)) = [].
Proof.
  cbv zeta. unfold test_whisper_ws_frames, session, on_connect, logger, emit,
    set_abuf, deliver, bind, ret.
  cbn [cl trace abuf closed fresh].
  rewrite on_message_binary. cbn [fst snd cl trace abuf closed app].
  repeat split.
Qed.

(** X7.  How the audio is cut into frames does not matter: two sessions
    whose binary frames concatenate to the same bytes end the same way,
    call the engine on the same signal and send the same reply.  A sample
    may straddle two frames. *)
Theorem framing_does_not_matter
    (transcribe : signal -> option (list str)) (socket_ok socket_ok' : list event -> bool)
    (rules : list rule) (chunks chunks' : list bytes) (t t' : str) :
  concat chunks = concat chunks' ->
  let out := session transcribe socket_ok rules (map Binary chunks ++ [Text t]) fresh in
  let out' := session transcribe socket_ok' rules (map Binary chunks' ++ [Text t']) fresh in
  fst out = fst out'
  /\ engine_calls (trace (snd out)) = engine_calls (trace (snd out'))
  /\ send_calls (trace (snd out)) = send_calls (trace (snd out')).
Proof.
  intros H. cbv zeta.
  destruct (session_text_effects transcribe socket_ok rules chunks t)
    as (He & Hs & Hf).
  destruct (session_text_effects transcribe socket_ok' rules chunks' t')
    as (He' & Hs' & Hf').
  cbv zeta in He, Hs, Hf, He', Hs', Hf'.
  rewrite He, Hs, Hf, He', Hs', Hf', H. repeat split.
Qed.

Lemma framing_does_not_matter_witness :
  let eng := fun _ : signal => Some [py "test"] in
  engine_calls
    (trace (snd (session eng (fun _ => true) corrections
                   (map Binary [[x01]; [x02; x03]; [x04]] ++ [Text (py "EOS")]) fresh)))
  = engine_calls
      (trace (snd (session eng (fun _ => false) corrections
                     (map Binary [[x01; x02; x03; x04]] ++ [Text []]) fresh))).
Proof.
  exact (proj1 (proj2
    (framing_does_not_matter (fun _ => Some [py "test"]) (fun _ => true)
       (fun _ => false) corrections [[x01]; [x02; x03]; [x04]]
       [[x01; x02; x03; x04]] (py "EOS") [] eq_refl))).
Defined.

(** X8.  A text frame with no audio before it still runs the whole
    finalization: the engine is called once, on the empty signal, and its
    segments, if it returns any, go out in a reply. *)
Theorem text_frame_without_audio
    (transcribe : signal -> option (list str)) (socket_ok : list event -> bool)
    (rules : list rule) (t : str) :
  let out := session transcribe socket_ok rules [Text t] fresh in
  engine_calls (trace (snd out)) = [[]]
  /\ send_calls (trace (snd out)) =
     match transcribe [] with
     | Some segments => [response (sanitize rules segments)]
     | None => []
     end.
Proof.
  destruct (session_text_effects transcribe socket_ok rules [] t) as (He & Hs & _).
  cbv zeta in *. cbn [map app] in He, Hs. split; assumption.
Qed.




(** ** More on the normalizer *)

Lemma to_N_injective (a b : byte) : to_N a = to_N b -> a = b.
Proof.
  intros H. apply (f_equal of_N) in H. rewrite !of_to_N in H. now injection H.
Qed.

Lemma int16_le_injective (a0 a1 b0 b1 : byte) :
  int16_le a0 a1 = int16_le b0 b1 -> a0 = b0 /\ a1 = b1.
Proof.
  unfold int16_le. intros H.
  pose proof (to_N_bounded a0). pose proof (to_N_bounded a1).
  pose proof (to_N_bounded b0). pose proof (to_N_bounded b1).
  assert (to_N a0 = to_N b0 /\ to_N a1 = to_N b1) as [E0 E1].
  { destruct (Z.ltb_spec (Z.of_N (to_N a0) + 256 * Z.of_N (to_N a1)) 32768);
      destruct (Z.ltb_spec (Z.of_N (to_N b0) + 256 * Z.of_N (to_N b1)) 32768);
      lia. }
  split; now apply to_N_injective.
Qed.

Lemma int16_items_injective (n : nat) :
  forall raw raw' n',
    length raw = 2 * n -> length raw' = 2 * n' ->
    int16_items raw = int16_items raw' -> raw = raw'.
Proof.
  induction n as [|n IH]; intros raw raw' n' H H' E.
  - destruct raw; [|discriminate].
    destruct raw' as [|b0 [|b1 rest]]; [reflexivity | simpl in H'; lia | discriminate].
  - destruct raw as [|a0 [|a1 rest]]; simpl in H; try lia.
    destruct raw' as [|b0 [|b1 rest']]; [discriminate | simpl in H'; lia |].
    simpl in E. injection E as E0 E.
    destruct (int16_le_injective _ _ _ _ E0) as [-> ->].
    destruct n' as [|n']; [simpl in H'; lia|].
    f_equal. f_equal. apply (IH rest rest' n'); [lia | simpl in H'; lia | exact E].
Qed.

Lemma int16_items_range (raw : bytes) :
  Forall (fun x => (-32768 <= x < 32768)%Z) (int16_items raw).
Proof.
  assert (G : forall n raw, length raw <= n ->
                Forall (fun x => (-32768 <= x < 32768)%Z) (int16_items raw)).
  { induction n as [|n IH]; intros r Hr.
    - destruct r; [constructor | simpl in Hr; lia].
    - destruct r as [|b0 [|b1 rest]]; try constructor.
      + apply int16_le_range.
      + apply IH. simpl in Hr. lia. }
  apply (G (length raw)). apply le_n.
Qed.

(** The quotient of a sample stands for the sample over 32768. *)
Lemma scaled_value (x : Z) :
  (-32768 <= x < 32768)%Z ->
  exists q, f32_value (f32_div (f32_of_Z x) (f32_of_Z 32768)) = Some q
            /\ (q == x # 32768)%Q.
Proof.
  intros R. pose proof (scaled_exactly_all x R) as E.
  unfold scaled_exactly in E.
  apply andb_prop in E. destruct E as [E _].
  apply andb_prop in E. destruct E as [E _].
  destruct (f32_value (f32_div (f32_of_Z x) (f32_of_Z 32768))) as [q|];
    [|discriminate].
  exists q. split; [reflexivity|]. now apply Qeq_bool_iff.
Qed.

Lemma scaled_injective (x y : Z) :
  (-32768 <= x < 32768)%Z -> (-32768 <= y < 32768)%Z ->
  f32_div (f32_of_Z x) (f32_of_Z 32768) = f32_div (f32_of_Z y) (f32_of_Z 32768) ->
  x = y.
Proof.
  intros Rx Ry E.
  destruct (scaled_value x Rx) as [q [Hq Eq]].
  destruct (scaled_value y Ry) as [q' [Hq' Eq']].
  rewrite E, Hq' in Hq. injection Hq as <-.
  rewrite Eq' in Eq. unfold Qeq in Eq. simpl in Eq. lia.
Qed.

Lemma scale_f32_injective (a b : list Z) :
  Forall (fun x => (-32768 <= x < 32768)%Z) a ->
  Forall (fun x => (-32768 <= x < 32768)%Z) b ->
  scale_f32 a = scale_f32 b -> a = b.
Proof.
  intros Ha. revert b. induction Ha as [|x a Rx _ IH]; intros b Hb E.
  - destruct b; [reflexivity | discriminate].
  - destruct Hb as [|y b Ry Hb]; [discriminate|].
    simpl in E. injection E as E0 E.
    f_equal; [now apply scaled_injective | now apply IH].
Qed.

(** X10.  Normalizing loses nothing: two buffers of even length with the
    same normalized signal are the same bytes. *)
Theorem normalize_is_lossless (raw raw' : bytes) (n n' : nat) :
  length raw = 2 * n -> length raw' = 2 * n' ->
  normalize raw = normalize raw' -> raw = raw'.
Proof.
  intros H H' E. unfold normalize in E.
  rewrite (frombuffer_even raw n H), (frombuffer_even raw' n' H') in E.
  injection E as E.
  apply (int16_items_injective n raw raw' n' H H').
  apply scale_f32_injective; [apply int16_items_range .. | exact E].
Qed.

Lemma normalize_is_lossless_witness :
  [xff; x7f; x00; x80] = [xff; x7f; x00; x80].
Proof.
  exact (normalize_is_lossless [xff; x7f; x00; x80] [xff; x7f; x00; x80] 2 2
           eq_refl eq_refl eq_refl).
Defined.

Lemma int16_items_app (n : nat) :
  forall a b, length a = 2 * n -> int16_items (a ++ b) = int16_items a ++ int16_items b.
Proof.
  induction n as [|n IH]; intros a b H.
  - destruct a; [reflexivity | discriminate].
  - destruct a as [|a0 [|a1 rest]]; simpl in H; try lia.
    simpl. f_equal. apply IH. lia.
Qed.

(** X11.  On buffers of whole samples the normalizer goes through
    concatenation: the signal of two buffers put end to end is the signal
    of the first followed by the signal of the second. *)
Theorem normalize_concatenation (a b : bytes) (n m : nat) :
  length a = 2 * n -> length b = 2 * m ->
  exists sa sb,
    normalize a = Return sa /\ normalize b = Return sb
    /\ normalize (a ++ b) = Return (sa ++ sb).
Proof.
  intros Ha Hb.
  exists (scale_f32 (int16_items a)), (scale_f32 (int16_items b)).
  unfold normalize.
  rewrite (frombuffer_even a n Ha), (frombuffer_even b m Hb).
  rewrite (frombuffer_even (a ++ b) (n + m)) by (rewrite length_app; lia).
  rewrite (int16_items_app n a b Ha).
  unfold scale_f32. rewrite map_app. repeat split.
Qed.

Lemma normalize_concatenation_witness :
  normalize ([x00; x00] ++ [xff; x7f])
  = Return ([S754_zero false] ++ [S754_finite false 16776704 (-24)]).
Proof.
  destruct (normalize_concatenation [x00; x00] [xff; x7f] 1 1 eq_refl eq_refl)
    as [sa [sb [Ha [Hb H]]]].
  injection Ha as <-. injection Hb as <-. exact H.
Defined.

(** ** More on the sanitizer *)

Lemma closes_on_line_no_rbr (t : str) : ~ In RBR t -> closes_on_line t = false.
Proof.
  induction t as [|c t IH]; intros H; [reflexivity|].
  simpl. destruct (N.eqb c NL); [reflexivity|].
  destruct (N.eqb_spec c RBR) as [->|_].
  - exfalso. apply H. now left.
  - simpl. apply IH. intros G. apply H. now right.
Qed.

Lemma has_run_no_rbr (t : str) : ~ In RBR t -> has_run t = false.
Proof.
  induction t as [|c t IH]; intros H; [reflexivity|].
  simpl. rewrite closes_on_line_no_rbr, andb_false_r by (intros G; apply H; now right).
  apply IH. intros G. apply H. now right.
Qed.

Lemma has_run_no_lbr (t : str) : ~ In LBR t -> has_run t = false.
Proof.
  induction t as [|c t IH]; intros H; [reflexivity|].
  simpl. destruct (N.eqb_spec c LBR) as [->|_].
  - exfalso. apply H. now left.
  - simpl. apply IH. intros G. apply H. now right.
Qed.

(** A text without a run is left alone. *)
Lemma drop_runs_no_run (t : str) : has_run t = false -> drop_runs false t = t.
Proof.
  induction t as [|c t IH]; intros H; [reflexivity|].
  simpl in H. apply orb_false_elim in H. destruct H as [H1 H2].
  cbn [drop_runs]. rewrite H1. f_equal. now apply IH.
Qed.

Lemma escape_quotes_no_quote (s : str) : ~ In DQ s -> escape_quotes s = s.
Proof.
  induction s as [|c s IH]; intros H; [reflexivity|].
  cbn [escape_quotes flat_map]. fold (escape_quotes s).
  destruct (N.eqb_spec c DQ) as [->|_].
  - exfalso. apply H. now left.
  - simpl. f_equal. apply IH. intros G. apply H. now right.
Qed.

Lemma In_lstrip (c : char) (s : str) : In c (lstrip s) -> In c s.
Proof.
  induction s as [|x s IH]; simpl; [tauto|].
  destruct (isspace x); [intros H; right; now apply IH | tauto].
Qed.

Lemma In_rstrip (c : char) (s : str) : In c (rstrip s) -> In c s.
Proof.
  induction s as [|x s IH]; simpl; [tauto|].
  destruct (rstrip s) as [|y t].
  - destruct (isspace x); simpl; tauto.
  - simpl. intros [H|H]; [now left | right; apply IH; exact H].
Qed.

Lemma In_strip (c : char) (s : str) : In c (strip s) -> In c s.
Proof. unfold strip. intros H. now apply In_lstrip, In_rstrip. Qed.

Lemma In_join (c : char) (sep : str) (xs : list str) :
  In c (join sep xs) -> In c sep \/ exists x, In x xs /\ In c x.
Proof.
  induction xs as [|x [|y more] IH]; intros H.
  - destruct H.
  - right. exists x. split; [now left | exact H].
  - change (join sep (x :: y :: more)) with (x ++ sep ++ join sep (y :: more)) in H.
    apply in_app_or in H. destruct H as [H|H].
    + right. exists x. split; [now left | exact H].
    + apply in_app_or in H. destruct H as [H|H]; [now left|].
      destruct (IH H) as [G|[z [Hz Hc]]]; [now left|].
      right. exists z. split; [now right | exact Hc].
Qed.

Lemma lstrip_idempotent (s : str) : lstrip (lstrip s) = lstrip s.
Proof.
  induction s as [|c s IH]; [reflexivity|].
  simpl. destruct (isspace c) eqn:E; [exact IH|]. simpl. now rewrite E.
Qed.

Lemma rstrip_idempotent (s : str) : rstrip (rstrip s) = rstrip s.
Proof.
  induction s as [|c s IH]; [reflexivity|].
  simpl. destruct (rstrip s) as [|y t] eqn:E.
  - destruct (isspace c) eqn:Ec; [reflexivity|]. simpl. now rewrite Ec.
  - change (rstrip (c :: y :: t)) with
      (match rstrip (y :: t) with
       | [] => if isspace c then [] else [c]
       | u => c :: u
       end).
    rewrite IH. reflexivity.
Qed.

Lemma lstrip_rstrip (s : str) : lstrip s = s -> lstrip (rstrip s) = rstrip s.
Proof.
  destruct s as [|c s]; [reflexivity|].
  simpl. destruct (isspace c) eqn:E.
  - intros H. exfalso. apply (f_equal (@length char)) in H.
    assert (L : forall u, length (lstrip u) <= length u).
    { induction u as [|x u IHu]; simpl; [lia|]. destruct (isspace x); simpl; lia. }
    specialize (L s). simpl in H. lia.
  - intros _. destruct (rstrip s); simpl; now rewrite E.
Qed.

(** What [strip] returns has no white space at either end. *)
Lemma strip_stripped (s : str) :
  lstrip (strip s) = strip s /\ rstrip (strip s) = strip s.
Proof.
  unfold strip. split.
  - apply lstrip_rstrip, lstrip_idempotent.
  - apply rstrip_idempotent.
Qed.

Lemma sanitize_plain (segments : list str) :
  Forall (fun seg => ~ In LBR seg /\ ~ In DQ seg) segments ->
  sanitize corrections segments = strip (join (py " ") segments).
Proof.
  intros H.
  assert (N : forall c, c = LBR \/ c = DQ ->
                        ~ In c (strip (join (py " ") segments))).
  { intros c Hc G. apply In_strip, In_join in G.
    destruct G as [G|[x [Hx G]]].
    - destruct Hc as [-> | ->]; simpl in G; destruct G as [G|[]]; discriminate G.
    - rewrite Forall_forall in H. destruct (H x Hx) as [H1 H2].
      destruct Hc as [-> | ->]; contradiction. }
  unfold corrections. rewrite sanitize_no_rules. unfold remove_bracket_runs.
  rewrite drop_runs_no_run by (apply has_run_no_lbr, N; now left).
  apply escape_quotes_no_quote, N. now right.
Qed.

(** X12.  When no segment holds an opening bracket or a double quote, the
    sanitizer of the source does no more than join and trim: the output is
    the space-joined text without its outer white space. *)
Theorem sanitize_plain_text (segments : list str) :
  Forall (fun seg => ~ In LBR seg /\ ~ In DQ seg) segments ->
  sanitize corrections segments = strip (join (py " ") segments)
  /\ lstrip (sanitize corrections segments) = sanitize corrections segments
  /\ rstrip (sanitize corrections segments) = sanitize corrections segments.
Proof.
  intros H. rewrite (sanitize_plain segments H).
  split; [reflexivity|]. apply strip_stripped.
Qed.

Lemma sanitize_plain_text_witness :
  sanitize corrections [py " hello"; py "world "] = py "hello world".
Proof.
  refine (eq_trans (proj1 (sanitize_plain_text [py " hello"; py "world "] _)) _).
  - repeat constructor; simpl; intros H;
      repeat (destruct H as [H|H]; [discriminate H|]); exact H.
  - reflexivity.
Defined.

(** X13.  The bracket removal of line 171 is idempotent: what it returns
    holds no run, and a second pass changes nothing. *)
Theorem bracket_removal_idempotent (s : str) :
  no_bracket_run (re_sub bracket_re [] s)
  /\ re_sub bracket_re [] (re_sub bracket_re [] s) = re_sub bracket_re [] s.
Proof.
  rewrite !re_sub_bracket. unfold remove_bracket_runs.
  pose proof (proj1 (proj1 (drop_runs_clean s))) as H.
  split; [now apply has_run_false | now apply drop_runs_no_run].
Qed.

Lemma drop_runs_prefix (pre s : str) :
  ~ In LBR pre -> drop_runs false (pre ++ s) = pre ++ drop_runs false s.
Proof.
  induction pre as [|c pre IH]; intros H; [reflexivity|].
  cbn [app drop_runs]. destruct (N.eqb_spec c LBR) as [->|_].
  - exfalso. apply H. now left.
  - cbn [andb]. f_equal. apply IH. intros G. apply H. now right.
Qed.

Lemma closes_on_line_mid (mid post : str) :
  ~ In NL mid -> closes_on_line (mid ++ RBR :: post) = true.
Proof.
  induction mid as [|c mid IH]; intros H.
  - reflexivity.
  - cbn [app closes_on_line]. destruct (N.eqb_spec c NL) as [->|_].
    + exfalso. apply H. now left.
    + rewrite IH by (intros G; apply H; now right). apply orb_true_r.
Qed.

Lemma drop_runs_inside (mid post : str) :
  ~ In NL mid -> closes_on_line post = false ->
  drop_runs true (mid ++ RBR :: post) = drop_runs false post.
Proof.
  induction mid as [|c mid IH]; intros H P.
  - cbn [app drop_runs]. rewrite P. reflexivity.
  - cbn [app drop_runs].
    rewrite closes_on_line_mid by (intros G; apply H; now right).
    rewrite andb_false_r. apply IH; [intros G; apply H; now right | exact P].
Qed.

(** X14.  The removal is greedy on every input: on a line that has no
    opening bracket before the first one and no closing bracket after the
    last one, everything from the first opening bracket to the last
    closing bracket goes, brackets and text between them alike. *)
Theorem bracket_removal_greedy (pre mid post : str) :
  ~ In LBR pre -> ~ In NL mid -> ~ In RBR post ->
  re_sub bracket_re [] (pre ++ LBR :: mid ++ RBR :: post) = pre ++ post.
Proof.
  intros Hpre Hmid Hpost.
  rewrite re_sub_bracket. unfold remove_bracket_runs.
  rewrite drop_runs_prefix by exact Hpre. f_equal.
  cbn [drop_runs]. rewrite closes_on_line_mid by exact Hmid. cbn [andb].
  rewrite drop_runs_inside by (try exact Hmid; now apply closes_on_line_no_rbr).
  now apply drop_runs_no_run, has_run_no_rbr.
Qed.

Lemma bracket_removal_greedy_witness :
  re_sub bracket_re [] (py "a " ++ LBR :: py "x] keep [y" ++ RBR :: py " b")
  = py "a " ++ py " b".
Proof.
  apply (bracket_removal_greedy (py "a ") (py "x] keep [y") (py " b"));
    simpl; intros H; repeat (destruct H as [H|H]; [discriminate H|]); exact H.
Defined.

(** ** What reaches the logs *)

(** The events a call of [on_message] adds to the trace; none of them is a
    record with text above the debug level. *)
Lemma on_message_new_events
    (transcribe : signal -> option (list str)) (socket_ok : list event -> bool)
    (rules : list rule) (msg : message) (w : world) :
  exists new,
    trace (snd (on_message transcribe socket_ok rules msg w)) = trace w ++ new
    /\ Forall discreet new.
Proof.
  destruct msg as [t|b].
  - unfold on_message, try_except_WebSocketError, bind, get_abuf, logger, emit,
      lift, model_transcribe, bind, emit, ret, raise.
    cbn [cl trace].
    destruct (frombuffer_int16 (join [] (abuf (cl w)))) as [a|e].
    + cbn [cl trace].
      destruct (transcribe (scale_f32 a)) as [segments|].
      * unfold client_send, client_close, bind, emit, raise. cbn [cl trace].
        destruct (socket_ok _); cbn [cl trace];
          [destruct (socket_ok _); cbn [cl trace]|];
          (eexists; split;
           [cbn [snd trace]; rewrite <- !app_assoc; cbn [app]; reflexivity
           |repeat constructor]).
      * cbn [snd trace]. eexists. split;
          [rewrite <- !app_assoc; cbn [app]; reflexivity | repeat constructor].
    + destruct e; cbn [snd trace cl]; eexists;
        (split; [rewrite <- ?app_assoc; cbn [app]; reflexivity | repeat constructor]).
  - rewrite on_message_binary. cbn [snd trace].
    eexists. split; [reflexivity | repeat constructor].
Qed.

(** X15.  Of the records [on_message] logs, none reaches the error log
    file, whatever level is configured, and those that carry text (the
    transcript at its stages) are all debug records: at any level above
    debug, the default included, they are written nowhere. *)
Theorem transcript_logged_at_debug_only
    (transcribe : signal -> option (list str)) (socket_ok : list event -> bool)
    (rules : list rule) (msg : message) (w : world) (resolved_level : nat) :
  exists new,
    trace (snd (on_message transcribe socket_ok rules msg w)) = trace w ++ new
    /\ forall lvl fmt args,
         In (Log lvl fmt args) new ->
         ~ In ErrorLogFile (written_to (setup_logging resolved_level) lvl)
         /\ (numbers_only args
             \/ (lvl = DEBUG
                 /\ (10 < resolved_level ->
                     written_to (setup_logging resolved_level) lvl = []))).
Proof.
  destruct (on_message_new_events transcribe socket_ok rules msg w)
    as [new [Hn Hd]].
  exists new. split; [exact Hn|].
  intros lvl fmt args Hin.
  rewrite Forall_forall in Hd. specialize (Hd _ Hin).
  split.
  - unfold written_to, setup_logging. cbn [root_level root_handlers].
    destruct (resolved_level <=? levelno lvl); [|intros []].
    cbn [filter handler_level target].
    destruct (resolved_level <=? levelno lvl);
      destruct lvl; cbn; intros H;
      repeat (destruct H as [H|H]; [discriminate H|]); exact H.
  - destruct lvl; cbn [discreet] in Hd.
    + right. split; [reflexivity|]. intros H.
      unfold written_to, setup_logging. cbn [root_level levelno].
      destruct (Nat.leb_spec resolved_level 10); [lia | reflexivity].
    + now left.
    + now left.
Qed.

(** ** The reply read back as JSON *)

Lemma strip_prefix_app (p s : str) : strip_prefix p (p ++ s) = Some s.
Proof.
  induction p as [|c p IH]; [now destruct s|].
  simpl. now rewrite N.eqb_refl.
Qed.

Lemma response_parts (m : str) :
  response m = reply_head ++ m ++ DQ :: reply_tail.
Proof. reflexivity. Qed.

(** A run of ordinary characters is read as it stands. *)
Lemma read_plain_prefix (word after : str) :
  Forall (fun c => c <> DQ /\ c <> BSL /\ (32 <= c)%N) word ->
  read_json_string (word ++ after) =
  match read_json_string after with
  | Some (body, beyond) => Some (word ++ body, beyond)
  | None => None
  end.
Proof.
  induction 1 as [|c word [H1 [H2 H3]] _ IH].
  - simpl. now destruct (read_json_string after) as [[? ?]|].
  - cbn [app read_json_string].
    destruct (N.eqb_spec c DQ) as [E|_]; [contradiction|].
    destruct (N.eqb_spec c BSL) as [E|_]; [contradiction|].
    destruct (N.ltb_spec c 32) as [E|_]; [lia|].
    rewrite IH. now destruct (read_json_string after) as [[? ?]|].
Qed.

(** Escaped text is read back as the text before escaping. *)
Lemma read_escaped (u after : str) :
  Forall (fun c => c <> BSL /\ (32 <= c)%N) u ->
  read_json_string (escape_quotes u ++ DQ :: after) = Some (u, after).
Proof.
  induction 1 as [|c u [H1 H2] _ IH].
  - simpl. reflexivity.
  - cbn [escape_quotes flat_map]. fold (escape_quotes u).
    destruct (N.eqb_spec c DQ) as [->|Hq].
    + cbn [app read_json_string]. cbn. rewrite IH. reflexivity.
    + cbn [app read_json_string].
      destruct (N.eqb_spec c DQ) as [E|_]; [contradiction|].
      destruct (N.eqb_spec c BSL) as [E|_]; [contradiction|].
      destruct (N.ltb_spec c 32) as [E|_]; [lia|].
      rewrite IH. reflexivity.
Qed.

(** X16.  Round trip through the reply.  When the transcript, after the
    bracket removal, holds no backslash and no control character, a JSON
    reader finds in the reply exactly that transcript, its double quotes
    restored, and then the rest of the reply. *)
Theorem reply_round_trip (segments : list str) :
  let u := remove_bracket_runs (strip (join (py " ") segments)) in
  Forall (fun c => c <> BSL /\ (32 <= c)%N) u ->
  transcript_of (response (sanitize corrections segments)) = Some (u, reply_tail).
Proof.
  intros u H. unfold transcript_of.
  rewrite response_parts, strip_prefix_app.
  unfold corrections. rewrite sanitize_no_rules. fold u.
  now apply read_escaped.
Qed.

Lemma reply_round_trip_witness :
  transcript_of (response (sanitize corrections [lit "He said 'hi' [music]"]))
  = Some (lit "He said 'hi' ", reply_tail).
Proof.
  apply (reply_round_trip [lit "He said 'hi' [music]"]).
  vm_compute. repeat constructor; intros H; vm_compute in H; discriminate H.
Defined.

Lemma lstrip_no_space (s : str) :
  Forall (fun c => isspace c = false) s -> lstrip s = s.
Proof. destruct 1 as [|c s H _]; [reflexivity|]. simpl. now rewrite H. Qed.

Lemma rstrip_no_space (s : str) :
  Forall (fun c => isspace c = false) s -> rstrip s = s.
Proof.
  induction 1 as [|c s H _ IH]; [reflexivity|].
  simpl. rewrite IH. destruct s; [now rewrite H | reflexivity].
Qed.

(** X17.  A backslash is not escaped.  Take a word whose characters are
    neither white space nor control characters, and none of them a double
    quote, a backslash or an opening bracket, and put one backslash after
    it.  The sanitizer returns that transcript unchanged, and in the reply
    its backslash escapes the quote meant to close the transcript: a JSON
    reader takes the next characters of the reply for part of the
    transcript. *)
Theorem trailing_backslash_breaks_reply (word : str) :
  Forall (fun c => isspace c = false /\ (32 <= c)%N
                   /\ c <> DQ /\ c <> BSL /\ c <> LBR) word ->
  sanitize corrections [word ++ [BSL]] = word ++ [BSL]
  /\ transcript_of (response (sanitize corrections [word ++ [BSL]]))
     = Some (word ++ DQ :: py "}], ",
             lit "final': true}, 'id': '1aacc69d-3674-438a-b3c5-fc0ed51769a5'}").
Proof.
  intros H. rewrite Forall_forall in H.
  assert (E : sanitize corrections [word ++ [BSL]] = word ++ [BSL]).
  { rewrite sanitize_plain.
    - cbn [join]. unfold strip.
      assert (S : Forall (fun c => isspace c = false) (word ++ [BSL])).
      { apply Forall_app. split.
        - apply Forall_forall. intros c Hc. apply (H c Hc).
        - repeat constructor. }
      now rewrite (lstrip_no_space _ S), (rstrip_no_space _ S).
    - constructor; [|constructor]. split; intros G; apply in_app_or in G;
        destruct G as [G|[G|[]]]; try discriminate G;
        destruct (H _ G) as (_ & _ & ? & ? & ?); contradiction. }
  split; [exact E|].
  unfold transcript_of. rewrite response_parts, strip_prefix_app, E.
  rewrite <- app_assoc. rewrite read_plain_prefix.
  - reflexivity.
  - apply Forall_forall. intros c Hc.
    destruct (H c Hc) as (_ & ? & ? & ? & _). repeat split; assumption.
Qed.

Lemma trailing_backslash_breaks_reply_witness :
  sanitize corrections [py "C:" ++ [BSL]] = py "C:" ++ [BSL].
Proof.
  apply (trailing_backslash_breaks_reply (py "C:")).
  repeat constructor; discriminate.
Defined.
